(** * Shortest-path engine of the vehicle telemetry platform

    A shallow embedding of [src/engine/python/graph.py]: the [Graph] class
    ([add_vertex], [add_edge], [dijkstra], [get_shortest_path], [dfs]), the
    great-circle distance [haversine_distance] and the complete-graph
    builder [build_graph_from_locations].

    Modelling conventions.
    - Python integers are [Z]; node identifiers are Python integers.
    - Python dictionaries are [gmap]s; a subscript [d[k]] on a plain [dict]
      raises [KeyError] when the key is absent, and the model returns
      [Raise (KeyError k)] there.  [self.adj] is a [defaultdict(list)]: a
      subscript on an absent key reads as the empty list (and stores it,
      which no later read or [add_vertex] can tell from its absence).
    - Python sets are [gset]s.
    - Edge weights and distances are Python floats.  The solver only uses
      [0], [float('inf')], [+], [<] and [==] on them; these five operations
      form the interface [Weight], and the properties of floats that the
      proofs rely on are the laws of [WeightLaws].  The geometry code uses
      trigonometry; there floats are idealised as real numbers, and a
      second embedding over binary64, with the functions of the [math]
      module as parameters, tells what depends on rounding.
    - Loops that Python runs until a condition fails take a [fuel] bound;
      running out of it is the distinct outcome [OutOfFuel]. *)

From Stdlib Require Import ZArith Reals Lra Lia.
From Stdlib Require PrimFloat.
From stdpp Require Import gmap strings list.

Local Open Scope Z_scope.

(** ** Exceptions and results *)

Inductive pykey :=
  | IntKey (z : Z)
  | StrKey (s : string).

Inductive exn :=
  | KeyError (k : pykey)
  | IndexError
  | NameError (name : string)
  | TypeError.

Inductive result (A : Type) :=
  | Ok (a : A)
  | Raise (e : exn)
  | OutOfFuel.

Arguments Ok {A} a.
Arguments Raise {A} e.
Arguments OutOfFuel {A}.

Global Instance result_ret : MRet result := λ A a, Ok a.

Global Instance result_bind : MBind result := λ A B k r,
  match r with
  | Ok a => k a
  | Raise e => Raise e
  | OutOfFuel => OutOfFuel
  end.

(** [d[k]] on a dictionary keyed by integers. *)
Definition subscript {A} (d : gmap Z A) (k : Z) : result A :=
  match d !! k with
  | Some a => Ok a
  | None => Raise (KeyError (IntKey k))
  end.

(** ** The graph *)

Record Graph (W : Type) := mkGraph {
  V : Z;
  adj : gmap Z (list (Z * W));
  edges : list (Z * Z * W)
}.

Arguments mkGraph {W} _ _ _.
Arguments V {W} _.
Arguments adj {W} _.
Arguments edges {W} _.

Section GraphOps.
Context {W : Type}.

(** [Graph(vertices)]; the default argument is [0]. *)
Definition Graph_init (vertices : Z) : Graph W :=
  mkGraph vertices ∅ [].

(** [self.adj[u]] read through the [defaultdict]. *)
Definition adj_get (g : Graph W) (u : Z) : list (Z * W) :=
  default [] (adj g !! u).

Definition add_vertex (g : Graph W) (v : Z) : Graph W :=
  mkGraph (if V g <=? v then v + 1 else V g)
          (match adj g !! v with
           | None => <[v := []]> (adj g)
           | Some _ => adj g
           end)
          (edges g).

Definition add_edge (g : Graph W) (u v : Z) (weight : W) : Graph W :=
  let g1 := add_vertex g u in
  let g2 := add_vertex g1 v in
  mkGraph (V g2)
          (<[u := adj_get g2 u ++ [(v, weight)]]> (adj g2))
          (edges g2 ++ [(u, v, weight)]).

(** Calls of the two mutators, to speak of every graph a caller can
    build. *)
Inductive call :=
  | AddVertex (v : Z)
  | AddEdge (u v : Z) (weight : W).

Definition run_call (g : Graph W) (c : call) : Graph W :=
  match c with
  | AddVertex v => add_vertex g v
  | AddEdge u v weight => add_edge g u v weight
  end.

Definition run_calls (g : Graph W) (cs : list call) : Graph W :=
  foldl run_call g cs.

(** Every endpoint of a recorded edge is below [V] and has an adjacency
    entry. *)
Definition endpoint_ok (g : Graph W) (e : Z * Z * W) : Prop :=
  let '(u, v, _) := e in
  u < V g ∧ v < V g ∧ is_Some (adj g !! u) ∧ is_Some (adj g !! v).

Definition endpoints_exist (g : Graph W) : Prop :=
  Forall (endpoint_ok g) (edges g).

End GraphOps.

Arguments call : clear implicits.

(** ** Weights *)

(** The operations the solver applies to distances and weights:
    the literal [0], [float('inf')], [+], [<] and [==]. *)
Class Weight (W : Type) := {
  w0 : W;
  winf : W;
  wadd : W → W → W;
  wltb : W → W → bool;
  weqb : W → W → bool
}.

(** What the proofs use of them: [==] decides equality, [<] is a strict
    total order with [float('inf')] on top and [0] below it, and adding a
    weight that is not below [0] never yields a smaller value.  Floats other
    than NaN satisfy these laws (rounding is monotone). *)
Class WeightLaws (W : Type) `{Weight W} : Prop := {
  weqb_eq : ∀ x y : W, weqb x y = true ↔ x = y;
  wltb_irrefl : ∀ x : W, wltb x x = false;
  wltb_trans : ∀ x y z : W, wltb x y = true → wltb y z = true → wltb x z = true;
  wltb_total : ∀ x y : W, wltb x y = false → wltb y x = false → x = y;
  winf_top : ∀ x : W, wltb winf x = false;
  w0_finite : wltb w0 winf = true;
  wadd_nonneg : ∀ x w : W, wltb w w0 = false → wltb (wadd x w) x = false
}.

(** Exact arithmetic: a sum of finite values is finite.  Floats satisfy
    this as long as no sum overflows. *)
Class NoOverflow (W : Type) `{Weight W} : Prop := {
  wadd_finite : ∀ x w : W,
    wltb x winf = true → wltb w winf = true → wltb (wadd x w) winf = true
}.

(** A concrete weight type for examples: an integer, or [float('inf')]. *)
Inductive num :=
  | Fin (z : Z)
  | Inf.

Definition num_add (a b : num) : num :=
  match a, b with
  | Fin x, Fin y => Fin (x + y)
  | _, _ => Inf
  end.

Definition num_ltb (a b : num) : bool :=
  match a, b with
  | Fin x, Fin y => x <? y
  | Fin _, Inf => true
  | Inf, _ => false
  end.

Definition num_eqb (a b : num) : bool :=
  match a, b with
  | Fin x, Fin y => x =? y
  | Inf, Inf => true
  | _, _ => false
  end.

Global Instance num_weight : Weight num :=
  {| w0 := Fin 0; winf := Inf; wadd := num_add; wltb := num_ltb; weqb := num_eqb |}.

(** ** The solver *)

(** [{i: a for i in range(n)}] *)
Definition dict_of_range {A} (n : Z) (a : A) : gmap Z A :=
  list_to_map ((λ i, (i, a)) <$> seqZ 0 n).

Section Solver.
Context {W : Type} `{Weight W}.

(** Entries of the priority queue are tuples [(distance, vertex)]; Python
    compares tuples lexicographically, looking for the first position where
    the two differ under [==] and applying [<] there. *)
Definition entry_ltb (a b : W * Z) : bool :=
  if negb (weqb a.1 b.1) then wltb a.1 b.1
  else if negb (a.2 =? b.2) then a.2 <? b.2
  else false.

(** [heapq] is Python's standard library.  The queue is modelled as the bag
    of its entries: [heappush] adds one, [heappop] removes a least one. *)
Definition heappush (pq : list (W * Z)) (x : W * Z) : list (W * Z) := x :: pq.

Fixpoint heappop (pq : list (W * Z)) : option ((W * Z) * list (W * Z)) :=
  match pq with
  | [] => None
  | x :: rest =>
      match heappop rest with
      | None => Some (x, [])
      | Some (m, rest') =>
          if entry_ltb m x then Some (m, x :: rest') else Some (x, rest)
      end
  end.

(** The [for v, weight in self.adj[u]] loop of [dijkstra]. *)
Fixpoint relax (u : Z) (nbrs : list (Z * W))
    (dist : gmap Z W) (pq : list (W * Z)) : result (gmap Z W * list (W * Z)) :=
  match nbrs with
  | [] => Ok (dist, pq)
  | (v, weight) :: rest =>
      du ← subscript dist u;
      dv ← subscript dist v;
      if wltb (wadd du weight) dv then
        relax u rest (<[v := wadd du weight]> dist)
              (heappush pq (wadd du weight, v))
      else relax u rest dist pq
  end.

(** The [while pq] loop of [dijkstra]. *)
Fixpoint dijkstra_loop (fuel : nat) (g : Graph W)
    (dist : gmap Z W) (pq : list (W * Z)) (visited : gset Z) : result (gmap Z W) :=
  match fuel with
  | O => OutOfFuel
  | S fuel' =>
      match heappop pq with
      | None => Ok dist
      | Some ((d, u), pq') =>
          if decide (u ∈ visited) then dijkstra_loop fuel' g dist pq' visited
          else
            '(dist', pq'') ← relax u (adj_get g u) dist pq';
            dijkstra_loop fuel' g dist' pq'' ({[u]} ∪ visited)
      end
  end.

Definition dijkstra (fuel : nat) (g : Graph W) (source : Z) : result (gmap Z W) :=
  dijkstra_loop fuel g (<[source := w0]> (dict_of_range (V g) winf))
                [(w0, source)] ∅.

(** The [for] loop of [get_shortest_path]: as [relax], and records the
    parent. *)
Fixpoint relax_parent (u : Z) (nbrs : list (Z * W))
    (dist : gmap Z W) (parent : gmap Z (option Z)) (pq : list (W * Z))
    : result (gmap Z W * gmap Z (option Z) * list (W * Z)) :=
  match nbrs with
  | [] => Ok (dist, parent, pq)
  | (v, weight) :: rest =>
      du ← subscript dist u;
      dv ← subscript dist v;
      if wltb (wadd du weight) dv then
        relax_parent u rest (<[v := wadd du weight]> dist)
                     (<[v := Some u]> parent)
                     (heappush pq (wadd du weight, v))
      else relax_parent u rest dist parent pq
  end.

(** The [while pq] loop of [get_shortest_path], with its [break]. *)
Fixpoint shortest_path_loop (fuel : nat) (g : Graph W) (target : Z)
    (dist : gmap Z W) (parent : gmap Z (option Z))
    (pq : list (W * Z)) (visited : gset Z)
    : result (gmap Z W * gmap Z (option Z)) :=
  match fuel with
  | O => OutOfFuel
  | S fuel' =>
      match heappop pq with
      | None => Ok (dist, parent)
      | Some ((d, u), pq') =>
          if decide (u = target) then Ok (dist, parent)
          else if decide (u ∈ visited)
          then shortest_path_loop fuel' g target dist parent pq' visited
          else
            '(dist', parent', pq'') ← relax_parent u (adj_get g u) dist parent pq';
            shortest_path_loop fuel' g target dist' parent' pq'' ({[u]} ∪ visited)
      end
  end.

(** The [while current is not None] loop; [path] grows at its end. *)
Fixpoint walk_parents (fuel : nat) (parent : gmap Z (option Z))
    (current : option Z) (path : list Z) : result (list Z) :=
  match current with
  | None => Ok path
  | Some c =>
      match fuel with
      | O => OutOfFuel
      | S fuel' =>
          next ← subscript parent c;
          walk_parents fuel' parent next (path ++ [c])
      end
  end.

Definition get_shortest_path (fuel : nat) (g : Graph W) (source target : Z)
    : result (list Z * W) :=
  '(dist, parent) ← shortest_path_loop fuel g target
      (<[source := w0]> (dict_of_range (V g) winf))
      (dict_of_range (V g) None)
      [(w0, source)] ∅;
  dt ← subscript dist target;
  if weqb dt winf then Ok ([], winf)
  else
    path ← walk_parents fuel parent (Some target) [];
    Ok (reverse path, dt).

(** [dfs] reads a name [u] that it never binds.  Python looks such a name
    up among the module's globals; [global_u] is the binding found there,
    if any.  ([graph.py] binds [u] only when it is run as a script.) *)
Fixpoint dfs (fuel : nat) (global_u : option Z) (g : Graph W)
    (source : Z) (visited : option (gset Z)) : result (list Z * gset Z) :=
  match fuel with
  | O => OutOfFuel
  | S fuel' =>
      let visited := {[source]} ∪ default ∅ visited in
      match global_u with
      | None => Raise (NameError "u")
      | Some u =>
          (fix each (nbrs : list (Z * W)) (traversal : list Z) (visited : gset Z)
             : result (list Z * gset Z) :=
             match nbrs with
             | [] => Ok (traversal, visited)
             | (v, _) :: rest =>
                 if decide (v ∈ visited) then each rest traversal visited
                 else
                   '(sub, visited') ← dfs fuel' global_u g v (Some visited);
                   each rest (traversal ++ sub) visited'
             end) (adj_get g u) [source] visited
      end
  end.

(** ** Paths *)

Definition in_range (g : Graph W) (v : Z) : Prop := 0 ≤ v < V g.

(** Every neighbour listed in the adjacency structure is in [[0, V)]. *)
Definition targets_in_range (g : Graph W) : bool :=
  forallb (λ '(_, l), forallb (λ '(v, _), (0 <=? v) && (v <? V g)) l)
          (map_to_list (adj g)).

Definition nonneg_weights (g : Graph W) : bool :=
  forallb (λ '(_, l), forallb (λ '(_, w), negb (wltb w w0)) l)
          (map_to_list (adj g)).

Definition finite_weights (g : Graph W) : bool :=
  forallb (λ '(_, l), forallb (λ '(_, w), wltb w winf) l)
          (map_to_list (adj g)).

Inductive reachable (g : Graph W) (s : Z) : Z → Prop :=
  | reachable_source : reachable g s s
  | reachable_edge u v w :
      reachable g s u → (v, w) ∈ adj_get g u → reachable g s v.

(** [wpath g s v p D]: [p] lists the nodes of a walk from [s] to [v] along
    adjacency entries, and [D] is the sum of the weights of its edges, added
    in walk order starting from [0]. *)
Inductive wpath (g : Graph W) (s : Z) : Z → list Z → W → Prop :=
  | wpath_source : wpath g s s [s] w0
  | wpath_edge u v w p D :
      wpath g s u p D → (v, w) ∈ adj_get g u →
      wpath g s v (p ++ [v]) (wadd D w).

(** Iterations of the two loops never exceed this. *)
Definition total_adj (g : Graph W) : nat :=
  sum_list ((λ kl, length kl.2) <$> map_to_list (adj g)).

Definition fuel_bound (g : Graph W) : nat :=
  (total_adj g + Z.to_nat (V g) + 2)%nat.

End Solver.

(** ** Geometry and the graph builder *)

Section Geometry.
Local Open Scope R_scope.

(** [math.radians] *)
Definition radians (x : R) : R := x * (PI / 180).

(** The great-circle distance, with floats read as real numbers.  Over the
    reals the argument of [math.sqrt] is in [[0, 1]], so neither
    [math.sqrt] nor [math.asin] leaves its domain. *)
Definition haversine_distance (lat1 lon1 lat2 lon2 : R) : R :=
  let lat1 := radians lat1 in
  let lon1 := radians lon1 in
  let lat2 := radians lat2 in
  let lon2 := radians lon2 in
  let dlat := lat2 - lat1 in
  let dlon := lon2 - lon1 in
  let a := sin (dlat / 2) ^ 2 + cos lat1 * cos lat2 * sin (dlon / 2) ^ 2 in
  let c := 2 * asin (sqrt a) in
  let r := 6371 in
  c * r.

End Geometry.

(** Values found in a location dictionary. *)
Inductive pyval :=
  | PyStr (s : string)
  | PyFloat (x : R).

(** [loc[k]] on a dictionary keyed by strings. *)
Definition item (loc : gmap string pyval) (k : string) : result pyval :=
  match loc !! k with
  | Some v => Ok v
  | None => Raise (KeyError (StrKey k))
  end.

(** [locations[i]] for an index that is not negative. *)
Definition index {A} (l : list A) (i : nat) : result A :=
  match l !! i with
  | Some a => Ok a
  | None => Raise IndexError
  end.

(** [math.radians] accepts numbers only. *)
Definition as_float (v : pyval) : result R :=
  match v with
  | PyFloat x => Ok x
  | PyStr _ => Raise TypeError
  end.

(** The body of the inner loop, for the values [js] of [j] that remain.
    The four subscripts are evaluated before [haversine_distance] is
    called, and the call converts its arguments in order. *)
Fixpoint build_pairs (locations : list (gmap string pyval)) (i : nat)
    (js : list nat) (g : Graph R) : result (Graph R) :=
  match js with
  | [] => Ok g
  | j :: js' =>
      loc1 ← index locations i;
      loc2 ← index locations j;
      v1 ← item loc1 "lat";
      v2 ← item loc1 "lon";
      v3 ← item loc2 "lat";
      v4 ← item loc2 "lon";
      lat1 ← as_float v1;
      lon1 ← as_float v2;
      lat2 ← as_float v3;
      lon2 ← as_float v4;
      let distance := haversine_distance lat1 lon1 lat2 lon2 in
      let g1 := add_edge g (Z.of_nat i) (Z.of_nat j) distance in
      let g2 := add_edge g1 (Z.of_nat j) (Z.of_nat i) distance in
      build_pairs locations i js' g2
  end.

(** The outer loop, for the values [ivals] of [i] that remain. *)
Fixpoint build_rows (locations : list (gmap string pyval)) (n : nat)
    (ivals : list nat) (g : Graph R) : result (Graph R) :=
  match ivals with
  | [] => Ok g
  | i :: ivals' =>
      g' ← build_pairs locations i (seq (S i) (n - S i)) g;
      build_rows locations n ivals' g'
  end.

Definition build_graph_from_locations (locations : list (gmap string pyval))
    : result (Graph R) :=
  let n := length locations in
  build_rows locations n (seq 0 n) (Graph_init (Z.of_nat n)).

(** A point as the specification has it, and the dictionary a caller
    passes for it. *)
Record point := mkPoint {
  point_id : string;
  point_lat : R;
  point_lon : R
}.

Definition location_of (p : point) : gmap string pyval :=
  <["id" := PyStr (point_id p)]>
    (<["lat" := PyFloat (point_lat p)]>
       (<["lon" := PyFloat (point_lon p)]> ∅)).

Definition distance_km (a b : point) : R :=
  haversine_distance (point_lat a) (point_lon a) (point_lat b) (point_lon b).

(** The edges the builder records, in the order it records them. *)
Definition pair_edges (pts : list point) (i j : nat) : list (Z * Z * R) :=
  match pts !! i, pts !! j with
  | Some a, Some b =>
      [(Z.of_nat i, Z.of_nat j, distance_km a b);
       (Z.of_nat j, Z.of_nat i, distance_km a b)]
  | _, _ => []
  end.

Definition row_edges (pts : list point) (i : nat) (js : list nat)
    : list (Z * Z * R) :=
  js ≫= pair_edges pts i.

Definition complete_edges (pts : list point) : list (Z * Z * R) :=
  seq 0 (length pts) ≫= λ i, row_edges pts i (seq (S i) (length pts - S i)).

(** ** Vertices and edges *)

Section GraphFacts.
Context {W : Type}.
Implicit Types (g : Graph W) (cs : list (call W)).

Lemma add_vertex_V_le (g : Graph W) v : V g ≤ V (add_vertex g v).
Proof. simpl. destruct (Z.leb_spec (V g) v); lia. Qed.

Lemma add_vertex_V_gt (g : Graph W) v : v < V (add_vertex g v).
Proof. simpl. destruct (Z.leb_spec (V g) v); lia. Qed.

Lemma add_vertex_adj_self (g : Graph W) v :
  is_Some (adj (add_vertex g v) !! v).
Proof.
  simpl. destruct (adj g !! v) eqn:E.
  - rewrite E. eauto.
  - rewrite lookup_insert_eq. eauto.
Qed.

Lemma add_vertex_adj_mono (g : Graph W) v x :
  is_Some (adj g !! x) → is_Some (adj (add_vertex g v) !! x).
Proof.
  intros Hx. simpl. destruct (adj g !! v) eqn:E; [done|].
  destruct (decide (v = x)) as [->|Hne].
  - rewrite lookup_insert_eq. eauto.
  - by rewrite lookup_insert_ne.
Qed.

Lemma endpoint_ok_mono (g g' : Graph W) e :
  V g ≤ V g' →
  (∀ x, is_Some (adj g !! x) → is_Some (adj g' !! x)) →
  endpoint_ok g e → endpoint_ok g' e.
Proof.
  destruct e as [[u v] w]. simpl. intros HV Hadj (Hu & Hv & Hau & Hav).
  repeat split; auto; lia.
Qed.

Lemma add_vertex_endpoints (g : Graph W) v :
  endpoints_exist g → endpoints_exist (add_vertex g v).
Proof.
  unfold endpoints_exist. intros H. change (edges (add_vertex g v)) with (edges g).
  eapply Forall_impl; [exact H|]. intros e He.
  eapply endpoint_ok_mono; [apply add_vertex_V_le | | exact He].
  intros x. apply add_vertex_adj_mono.
Qed.

Lemma add_edge_V (g : Graph W) u v w :
  V (add_edge g u v w) = V (add_vertex (add_vertex g u) v).
Proof. reflexivity. Qed.

Lemma add_edge_adj_mono (g : Graph W) u v w x :
  is_Some (adj (add_vertex (add_vertex g u) v) !! x) →
  is_Some (adj (add_edge g u v w) !! x).
Proof.
  intros Hx. unfold add_edge. cbn [adj].
  destruct (decide (u = x)) as [->|Hne].
  - rewrite lookup_insert_eq. eauto.
  - by rewrite lookup_insert_ne.
Qed.

(** [add_edge] makes both endpoints of the new edge exist. *)
Lemma add_edge_new_endpoints (g : Graph W) u v w :
  endpoint_ok (add_edge g u v w) (u, v, w).
Proof.
  unfold endpoint_ok. rewrite add_edge_V.
  split; [|split; [|split]].
  - pose proof (add_vertex_V_gt g u). pose proof (add_vertex_V_le (add_vertex g u) v).
    lia.
  - apply add_vertex_V_gt.
  - apply add_edge_adj_mono. apply add_vertex_adj_mono, add_vertex_adj_self.
  - apply add_edge_adj_mono. apply add_vertex_adj_self.
Qed.

Lemma add_edge_endpoints (g : Graph W) u v w :
  endpoints_exist g → endpoints_exist (add_edge g u v w).
Proof.
  intros H.
  pose proof (add_vertex_endpoints _ v (add_vertex_endpoints _ u H)) as H2.
  set (g2 := add_vertex (add_vertex g u) v) in *.
  unfold endpoints_exist. change (edges (add_edge g u v w)) with (edges g2 ++ [(u, v, w)]).
  apply Forall_app. split.
  - eapply Forall_impl; [exact H2|]. intros e He.
    eapply endpoint_ok_mono; [| | exact He].
    + rewrite add_edge_V. fold g2. lia.
    + intros x. apply add_edge_adj_mono.
  - apply Forall_singleton. apply add_edge_new_endpoints.
Qed.

Lemma run_calls_endpoints (cs : list (call W)) (g : Graph W) :
  endpoints_exist g → endpoints_exist (run_calls g cs).
Proof.
  revert g. induction cs as [|c cs IH]; intros g Hg; [exact Hg|].
  simpl. apply IH. destruct c; simpl.
  - by apply add_vertex_endpoints.
  - by apply add_edge_endpoints.
Qed.

(** C8.  In every graph obtained from the empty graph by calls of
    [add_vertex] and [add_edge], each recorded edge [(u, v, w)] has
    [u < V], [v < V] and adjacency entries for both [u] and [v]; and
    [add_edge], on any graph, leaves the new edge with both. *)
Theorem built_graph_endpoints_exist (cs : list (call W)) (g : Graph W) (u v : Z) (w : W) :
  endpoints_exist (run_calls (Graph_init 0) cs)
  ∧ endpoint_ok (add_edge g u v w) (u, v, w).
Proof.
  split; [|apply add_edge_new_endpoints].
  apply run_calls_endpoints. constructor.
Qed.

(** C9.  A second [add_vertex v] right after a first one changes
    nothing, and the first one sets the vertex count to [v + 1] when
    [v >= V] and leaves it alone otherwise. *)
Theorem add_vertex_idempotent (g : Graph W) (v : Z) :
  add_vertex (add_vertex g v) v = add_vertex g v
  ∧ V (add_vertex g v) = (if V g <=? v then v + 1 else V g).
Proof.
  split; [|reflexivity].
  unfold add_vertex at 1. cbn [edges].
  pose proof (add_vertex_V_gt g v) as Hlt.
  destruct (Z.leb_spec (V (add_vertex g v)) v) as [Hle|_]; [lia|].
  destruct (add_vertex_adj_self g v) as [l Hl]. rewrite Hl.
  by destruct (add_vertex g v).
Qed.

End GraphFacts.

(** ** Order on weights *)

Section WeightOrder.
Context {W : Type} `{WeightLaws W}.

(** [wle x y]: [x] is not above [y]. *)
Definition wle (x y : W) : Prop := wltb y x = false.

Lemma wle_refl (x : W) : wle x x.
Proof. apply wltb_irrefl. Qed.

Lemma wle_trans (x y z : W) : wle x y → wle y z → wle x z.
Proof.
  unfold wle. intros Hxy Hyz.
  destruct (wltb z x) eqn:Hzx; [|done].
  destruct (wltb y z) eqn:Hzy.
  - by rewrite (wltb_trans _ _ _ Hzy Hzx) in Hxy.
  - rewrite (wltb_total _ _ Hyz Hzy) in Hzx. congruence.
Qed.

Lemma wlt_wle (x y : W) : wltb x y = true → wle x y.
Proof.
  unfold wle. intros Hxy. destruct (wltb y x) eqn:Hyx; [|done].
  pose proof (wltb_trans _ _ _ Hxy Hyx) as Hxx.
  by rewrite wltb_irrefl in Hxx.
Qed.

Lemma wle_top (x : W) : wle x winf.
Proof. apply winf_top. Qed.

Lemma wle_add (x w : W) : wle w0 w → wle x (wadd x w).
Proof. apply wadd_nonneg. Qed.

Lemma wlt_wle_trans (x y z : W) : wltb x y = true → wle y z → wltb x z = true.
Proof.
  unfold wle. intros Hxy Hyz.
  destruct (wltb y z) eqn:E.
  - by eapply wltb_trans.
  - by rewrite <-(wltb_total _ _ E Hyz).
Qed.

Lemma wle_wlt_false (x y : W) : wle x y → wltb y x = true → False.
Proof. unfold wle. congruence. Qed.

Lemma wlt_neq_inf (x y : W) : wltb x y = true → x ≠ winf.
Proof. intros Hxy ->. by rewrite winf_top in Hxy. Qed.

Lemma neq_inf_wlt (x : W) : x ≠ winf → wltb x winf = true.
Proof.
  intros Hx. destruct (wltb x winf) eqn:E; [done|].
  destruct Hx. apply wltb_total; [done|apply winf_top].
Qed.

Lemma weqb_refl (x : W) : weqb x x = true.
Proof. by apply weqb_eq. Qed.

Lemma weq_cases (x y : W) : x = y ∨ x ≠ y.
Proof.
  destruct (weqb x y) eqn:E.
  - left. by apply weqb_eq.
  - right. intros Heq. apply weqb_eq in Heq. congruence.
Qed.

Lemma weqb_neq (x y : W) : x ≠ y → weqb x y = false.
Proof.
  intros Hne. destruct (weqb x y) eqn:E; [|done].
  by apply weqb_eq in E.
Qed.

(** An entry that is not below another has a distance that is not below
    the other's. *)
Lemma entry_ltb_false_wle (a b : W * Z) : entry_ltb a b = false → wle b.1 a.1.
Proof.
  unfold entry_ltb, wle. destruct (weqb a.1 b.1) eqn:E; simpl.
  - apply weqb_eq in E. rewrite E. intros _. apply wltb_irrefl.
  - done.
Qed.

Lemma entry_ltb_true_wle (a b : W * Z) : entry_ltb a b = true → wle a.1 b.1.
Proof.
  unfold entry_ltb. destruct (weqb a.1 b.1) eqn:E; simpl.
  - apply weqb_eq in E. rewrite E. intros _. apply wle_refl.
  - apply wlt_wle.
Qed.

End WeightOrder.

(** ** The priority queue *)

Section Heap.
Context {W : Type} `{Weight W}.

Lemma heappop_None (pq : list (W * Z)) : heappop pq = None ↔ pq = [].
Proof.
  destruct pq as [|x rest]; simpl; [done|].
  split; [|done]. destruct (heappop rest) as [[m r]|]; [|done].
  by destruct (entry_ltb m x).
Qed.

Lemma heappop_perm (pq : list (W * Z)) m r :
  heappop pq = Some (m, r) → pq ≡ₚ m :: r.
Proof.
  revert m r. induction pq as [|x rest IH]; intros m r; simpl; [done|].
  destruct (heappop rest) as [[m' r']|] eqn:E.
  - specialize (IH _ _ eq_refl).
    destruct (entry_ltb m' x); intros [= <- <-].
    + rewrite IH. apply Permutation_swap.
    + done.
  - apply heappop_None in E as ->. by intros [= <- <-].
Qed.

Lemma heappop_length (pq : list (W * Z)) m r :
  heappop pq = Some (m, r) → length pq = S (length r).
Proof. intros Hp. by rewrite (heappop_perm _ _ _ Hp). Qed.

Lemma heappop_elem (pq : list (W * Z)) m r x :
  heappop pq = Some (m, r) → x ∈ pq ↔ x = m ∨ x ∈ r.
Proof. intros Hp. rewrite (heappop_perm _ _ _ Hp). apply elem_of_cons. Qed.

End Heap.

Section HeapMin.
Context {W : Type} `{WeightLaws W}.

(** The popped entry carries a least distance. *)
Lemma heappop_min (pq : list (W * Z)) m r y :
  heappop pq = Some (m, r) → y ∈ r → wle m.1 y.1.
Proof.
  revert m r y. induction pq as [|x rest IH]; intros m r y; simpl; [done|].
  destruct (heappop rest) as [[m' r']|] eqn:E.
  - destruct (entry_ltb m' x) eqn:Hlt; intros [= <- <-] Hy.
    + apply elem_of_cons in Hy as [->|Hy].
      * by apply entry_ltb_true_wle.
      * by eapply IH.
    + apply entry_ltb_false_wle in Hlt.
      apply (heappop_elem _ _ _ y E) in Hy as [->|Hy]; [done|].
      eapply wle_trans; [exact Hlt|]. by eapply IH.
  - intros [= <- <-] Hy. by apply elem_of_nil in Hy.
Qed.

End HeapMin.

(** ** Termination measure *)

Section Measure.
Context {W : Type}.

(** Adjacency entries of the nodes that are not yet visited. *)
Definition pending (visited : gset Z) (l : list (Z * list (Z * W))) : nat :=
  sum_list ((λ kl, if decide (kl.1 ∈ visited) then O else length kl.2) <$> l).

Definition unvisited_adj (g : Graph W) (visited : gset Z) : nat :=
  pending visited (map_to_list (adj g)).

Lemma visit_other (visited : gset Z) (u k : Z) :
  k ≠ u → k ∈ {[u]} ∪ visited ↔ k ∈ visited.
Proof.
  intros Hne. rewrite elem_of_union, elem_of_singleton. tauto.
Qed.

Lemma pending_absent (visited : gset Z) (l : list (Z * list (Z * W))) u :
  u ∉ l.*1 → pending ({[u]} ∪ visited) l = pending visited l.
Proof.
  induction l as [|[k v] l IH]; [done|].
  rewrite fmap_cons, not_elem_of_cons. intros [Hne Hl].
  unfold pending in *. rewrite !fmap_cons. simpl in *. rewrite (IH Hl).
  f_equal. apply decide_ext, visit_other. congruence.
Qed.

Lemma pending_visit (visited : gset Z) (l : list (Z * list (Z * W))) u :
  NoDup l.*1 → u ∉ visited →
  (pending ({[u]} ∪ visited) l
     + length (default [] ((list_to_map l : gmap Z (list (Z * W))) !! u))
   = pending visited l)%nat.
Proof.
  intros Hnd Hu. induction l as [|[k v] l IH]; [done|].
  rewrite fmap_cons in Hnd. apply NoDup_cons in Hnd as [Hk Hnd].
  specialize (IH Hnd). simpl list_to_map.
  destruct (decide (k = u)) as [->|Hne].
  - rewrite lookup_insert_eq. simpl default.
    unfold pending in *. rewrite !fmap_cons. simpl.
    fold (pending ({[u]} ∪ visited) l). fold (pending visited l).
    rewrite (pending_absent _ _ _ Hk).
    rewrite decide_True by (apply elem_of_union_l, elem_of_singleton; done).
    rewrite decide_False by done. lia.
  - rewrite lookup_insert_ne by done.
    unfold pending in *. rewrite !fmap_cons. simpl.
    rewrite (decide_ext _ _ _ _ (visit_other visited u k Hne)). lia.
Qed.

Lemma unvisited_adj_visit (g : Graph W) (visited : gset Z) u :
  u ∉ visited →
  (unvisited_adj g ({[u]} ∪ visited) + length (adj_get g u)
   = unvisited_adj g visited)%nat.
Proof.
  intros Hu. unfold unvisited_adj, adj_get.
  rewrite <-(pending_visit visited (map_to_list (adj g)) u);
    [|apply NoDup_fst_map_to_list|done].
  by rewrite list_to_map_to_list.
Qed.

Lemma unvisited_adj_empty (g : Graph W) : unvisited_adj g ∅ = total_adj g.
Proof.
  unfold unvisited_adj, total_adj, pending. f_equal.
Qed.

End Measure.

(** ** The relaxation loop *)

Section RelaxLoop.
Context {W : Type} `{Weight W}.

(** [relax] computes what [relax_parent] computes, less the parents. *)
Lemma relax_parent_relax (u : Z) (nbrs : list (Z * W)) dist parent pq :
  relax u nbrs dist pq =
  match relax_parent u nbrs dist parent pq with
  | Ok (dist', _, pq') => Ok (dist', pq')
  | Raise e => Raise e
  | OutOfFuel => OutOfFuel
  end.
Proof.
  revert dist parent pq. induction nbrs as [|[v w] rest IH]; intros dist parent pq; [done|].
  simpl. unfold subscript.
  destruct (dist !! u) as [du|]; [|done]. simpl.
  destruct (dist !! v) as [dv|]; [|done]. simpl.
  destruct (wltb (wadd du w) dv); apply IH.
Qed.

(** Loop rule: a property [P] of the neighbours already handled and of the
    three structures holds after the loop when every single relaxation
    keeps it; [P] must also provide the two subscripts the relaxation
    reads. *)
Lemma relax_parent_rule
    (P : list (Z * W) → gmap Z W → gmap Z (option Z) → list (W * Z) → Prop)
    (u : Z) (nbrs : list (Z * W)) :
  (∀ seen dist parent pq v w,
      P seen dist parent pq → (v, w) ∈ nbrs →
      ∃ du dv, dist !! u = Some du ∧ dist !! v = Some dv ∧
        if wltb (wadd du w) dv
        then P (seen ++ [(v, w)]) (<[v := wadd du w]> dist)
               (<[v := Some u]> parent) ((wadd du w, v) :: pq)
        else P (seen ++ [(v, w)]) dist parent pq) →
  ∀ seen dist parent pq,
    P seen dist parent pq →
    ∃ dist' parent' pq',
      relax_parent u nbrs dist parent pq = Ok (dist', parent', pq')
      ∧ P (seen ++ nbrs) dist' parent' pq'.
Proof.
  induction nbrs as [|[v w] rest IH]; intros Hstep seen dist parent pq HP.
  - exists dist, parent, pq. by rewrite app_nil_r.
  - destruct (Hstep seen dist parent pq v w HP) as (du & dv & Hu & Hv & Hnext);
      [by left|].
    simpl. unfold subscript. rewrite Hu, Hv. simpl.
    assert (∀ seen dist parent pq v w,
      P seen dist parent pq → (v, w) ∈ rest →
      ∃ du dv, dist !! u = Some du ∧ dist !! v = Some dv ∧
        if wltb (wadd du w) dv
        then P (seen ++ [(v, w)]) (<[v := wadd du w]> dist)
               (<[v := Some u]> parent) ((wadd du w, v) :: pq)
        else P (seen ++ [(v, w)]) dist parent pq) as Hstep'.
    { intros ????? w' HP' Hin. apply Hstep; [done|by right]. }
    destruct (wltb (wadd du w) dv).
    + destruct (IH Hstep' _ _ _ _ Hnext) as (d' & p' & q' & Hr & HP').
      exists d', p', q'. split; [done|]. by rewrite <-app_assoc in HP'.
    + destruct (IH Hstep' _ _ _ _ Hnext) as (d' & p' & q' & Hr & HP').
      exists d', p', q'. split; [done|]. by rewrite <-app_assoc in HP'.
Qed.

End RelaxLoop.

(** ** Well-formed graphs *)

Section GraphChecks.
Context {W : Type} `{Weight W}.

Lemma adj_get_elem (g : Graph W) u (e : Z * W) :
  e ∈ adj_get g u → ∃ l, (u, l) ∈ map_to_list (adj g) ∧ e ∈ l.
Proof.
  unfold adj_get. destruct (adj g !! u) as [l|] eqn:E; simpl.
  - intros He. exists l. split; [|done]. by apply elem_of_map_to_list.
  - intros He. by apply elem_of_nil in He.
Qed.

Lemma adj_forallb (g : Graph W) (f : Z * W → bool) u e :
  forallb (λ '(_, l), forallb f l) (map_to_list (adj g)) = true →
  e ∈ adj_get g u → f e = true.
Proof.
  intros Hall He. apply adj_get_elem in He as (l & Hl & He).
  rewrite forallb_forall in Hall.
  apply list_elem_of_In, Hall in Hl. simpl in Hl.
  rewrite forallb_forall in Hl. by apply Hl, list_elem_of_In.
Qed.

Lemma targets_in_range_elem (g : Graph W) u v w :
  targets_in_range g = true → (v, w) ∈ adj_get g u → in_range g v.
Proof.
  intros Hg He. unfold targets_in_range in Hg.
  pose proof (adj_forallb g (λ '(v, _), (0 <=? v) && (v <? V g)) u (v, w)) as Hf.
  simpl in Hf. specialize (Hf Hg He). unfold in_range. lia.
Qed.

Lemma nonneg_weights_elem (g : Graph W) u v w :
  nonneg_weights g = true → (v, w) ∈ adj_get g u → wltb w w0 = false.
Proof.
  intros Hg He. unfold nonneg_weights in Hg.
  pose proof (adj_forallb g (λ '(_, w), negb (wltb w w0)) u (v, w)) as Hf.
  simpl in Hf. specialize (Hf Hg He). by apply negb_true_iff in Hf.
Qed.

Lemma finite_weights_elem (g : Graph W) u v w :
  finite_weights g = true → (v, w) ∈ adj_get g u → wltb w winf = true.
Proof.
  intros Hg He. unfold finite_weights in Hg.
  exact (adj_forallb g (λ '(_, w), wltb w winf) u (v, w) Hg He).
Qed.

Lemma dict_of_range_keys {A} (l : list Z) (a : A) :
  ((λ i, (i, a)) <$> l).*1 = l.
Proof. induction l as [|x l IH]; [done|]. rewrite !fmap_cons. simpl. by f_equal. Qed.

Lemma dict_of_range_lookup {A} (n : Z) (a : A) (k : Z) :
  dict_of_range n a !! k = if decide (0 ≤ k < n) then Some a else None.
Proof.
  unfold dict_of_range. destruct (decide (0 ≤ k < n)) as [Hk|Hk].
  - apply elem_of_list_to_map.
    + rewrite dict_of_range_keys. apply NoDup_seqZ.
    + apply list_elem_of_fmap. exists k. split; [done|].
      apply elem_of_seqZ. lia.
  - apply not_elem_of_list_to_map.
    rewrite dict_of_range_keys, elem_of_seqZ. lia.
Qed.

End GraphChecks.

(** ** Invariants of the two loops *)

Section Invariants.
Context {W : Type} `{WeightLaws W}.
Variable g : Graph W.
Variable s : Z.

(** The keys of [dist] stay what they were at the start, queued nodes are
    among them, and only nodes reachable from the source get a finite
    distance or a queue entry. *)
Record struct_inv (dist : gmap Z W) (pq : list (W * Z)) : Prop := {
  si_dom : ∀ v, in_range g v → is_Some (dist !! v);
  si_keys : ∀ v, is_Some (dist !! v) → in_range g v ∨ v = s;
  si_pq : ∀ d x, (d, x) ∈ pq → is_Some (dist !! x);
  si_reach_dist : ∀ v dv, dist !! v = Some dv → dv ≠ winf → reachable g s v;
  si_reach_pq : ∀ d x, (d, x) ∈ pq → reachable g s x
}.

(** The invariant of Dijkstra's algorithm with lazy deletion: queue entries
    are never below the current distance of their node, every unvisited
    node with a finite distance has an up-to-date entry, and visited nodes
    are never farther than unvisited ones. *)
Record order_inv (dist : gmap Z W) (pq : list (W * Z)) (visited : gset Z) : Prop := {
  oi_sound : ∀ d x, (d, x) ∈ pq → ∃ dx, dist !! x = Some dx ∧ wle dx d;
  oi_complete : ∀ x dx,
    dist !! x = Some dx → dx ≠ winf → x ∉ visited → (dx, x) ∈ pq;
  oi_settled : ∀ x y dx dy,
    x ∈ visited → y ∉ visited →
    dist !! x = Some dx → dist !! y = Some dy → wle dx dy
}.

(** While [u] is being relaxed, no visited node is farther than [u]. *)
Definition latest (u : Z) (dist : gmap Z W) (visited : gset Z) : Prop :=
  ∀ x dx du, x ∈ visited → dist !! x = Some dx → dist !! u = Some du → wle dx du.

(** [pchain parent v p]: following [parent] from [v] until [None] visits
    the nodes of [p] from its last to its first. *)
Inductive pchain (parent : gmap Z (option Z)) : Z → list Z → Prop :=
  | pchain_root v : parent !! v = Some None → pchain parent v [v]
  | pchain_link v u p :
      parent !! v = Some (Some u) → pchain parent u p →
      pchain parent v (p ++ [v]).

(** Parents form a tree of walks whose weights are the distances; [closed]
    are the nodes all of whose edges have been relaxed. *)
Record tree_inv (dist : gmap Z W) (parent : gmap Z (option Z))
    (pq : list (W * Z)) (visited closed : gset Z) : Prop := {
  ti_finite : ∀ d x, (d, x) ∈ pq → d ≠ winf;
  ti_closed : ∀ x v w dx,
    x ∈ closed → (v, w) ∈ adj_get g x → dist !! x = Some dx →
    ∃ dv, dist !! v = Some dv ∧ wle dv (wadd dx w);
  ti_chain : ∀ v dv,
    dist !! v = Some dv → dv ≠ winf →
    ∃ p, pchain parent v p ∧ wpath g s v p dv ∧ NoDup p
         ∧ ∀ x, x ∈ p → x ≠ v → x ∈ visited;
  ti_dom : ∀ x, is_Some (parent !! x) → in_range g x ∨ x = s;
  ti_source : ∃ ds, dist !! s = Some ds ∧ ds ≠ winf
}.

(** *** One relaxation *)

Lemma struct_step u v w du dist pq :
  struct_inv dist pq → reachable g s u → (v, w) ∈ adj_get g u →
  in_range g v →
  struct_inv (<[v := wadd du w]> dist) ((wadd du w, v) :: pq).
Proof.
  intros [Hdom Hkeys Hpq Hrd Hrq] Hu Hvw Hv. split.
  - intros x Hx. destruct (decide (v = x)) as [->|Hne].
    + rewrite lookup_insert_eq. eauto.
    + rewrite lookup_insert_ne by done. auto.
  - intros x. destruct (decide (v = x)) as [->|Hne]; [by left|].
    rewrite lookup_insert_ne by done. auto.
  - intros d x [[= -> ->]|Hin]%elem_of_cons.
    + rewrite lookup_insert_eq. eauto.
    + destruct (decide (v = x)) as [->|Hne].
      * rewrite lookup_insert_eq. eauto.
      * rewrite lookup_insert_ne by done. eauto.
  - intros x dx. destruct (decide (v = x)) as [->|Hne].
    + intros _ _. by eapply reachable_edge.
    + rewrite lookup_insert_ne by done. eauto.
  - intros d x [[= -> ->]|Hin]%elem_of_cons.
    + by eapply reachable_edge.
    + eauto.
Qed.

Lemma relax_target_unvisited u v w du dv dist visited :
  latest u dist visited → dist !! u = Some du → dist !! v = Some dv →
  wle w0 w → wltb (wadd du w) dv = true → v ∉ visited.
Proof.
  intros Hlatest Hu Hv Hw Hlt Hvis.
  pose proof (Hlatest v dv du Hvis Hv Hu) as Hle.
  pose proof (wle_trans _ _ _ Hle (wle_add du w Hw)) as Hle'.
  exact (wle_wlt_false _ _ Hle' Hlt).
Qed.

Lemma order_step u v w du dv dist pq visited :
  order_inv dist pq visited → latest u dist visited → u ∈ visited →
  dist !! u = Some du → dist !! v = Some dv →
  wle w0 w → wltb (wadd du w) dv = true →
  order_inv (<[v := wadd du w]> dist) ((wadd du w, v) :: pq) visited
  ∧ latest u (<[v := wadd du w]> dist) visited.
Proof.
  intros [Hsound Hcomplete Hsettled] Hlatest Huvis Hu Hv Hw Hlt.
  pose proof (relax_target_unvisited _ _ _ _ _ _ _ Hlatest Hu Hv Hw Hlt) as Hvis.
  assert (u ≠ v) as Huv by (intros ->; done).
  split; [split|].
  - intros d x [[= -> ->]|Hin]%elem_of_cons.
    + rewrite lookup_insert_eq. eexists. split; [done|apply wle_refl].
    + destruct (Hsound d x Hin) as (dx & Hx & Hle).
      destruct (decide (v = x)) as [->|Hne].
      * rewrite lookup_insert_eq. eexists. split; [done|].
        rewrite Hv in Hx. injection Hx as ->.
        eapply wle_trans; [|exact Hle]. by apply wlt_wle.
      * rewrite lookup_insert_ne by done. eauto.
  - intros x dx. destruct (decide (v = x)) as [->|Hne].
    + rewrite lookup_insert_eq. intros [= <-] _ _. by left.
    + rewrite lookup_insert_ne by done. intros Hx Hfin Hxvis.
      right. eauto.
  - intros x y dx dy Hx Hy.
    assert (v ≠ x) as Hvx by (intros ->; done).
    rewrite lookup_insert_ne by done. intros Hdx.
    destruct (decide (v = y)) as [->|Hne].
    + rewrite lookup_insert_eq. intros [= <-].
      eapply wle_trans; [exact (Hlatest x dx du Hx Hdx Hu)|by apply wle_add].
    + rewrite lookup_insert_ne by done. eauto.
  - intros x dx du' Hx.
    assert (v ≠ x) as Hvx by (intros ->; done).
    rewrite !lookup_insert_ne by done. eauto.
Qed.

(** *** Popping an entry *)

Lemma struct_inv_pop dist pq m pq' :
  struct_inv dist pq → heappop pq = Some (m, pq') → struct_inv dist pq'.
Proof.
  intros [Hdom Hkeys Hpq Hrd Hrq] Hpop. split; [done|done| |done|].
  - intros d x Hin. apply (Hpq d x). apply (heappop_elem _ _ _ _ Hpop). by right.
  - intros d x Hin. apply (Hrq d x). apply (heappop_elem _ _ _ _ Hpop). by right.
Qed.

Lemma order_inv_skip dist pq visited d u pq' :
  order_inv dist pq visited → heappop pq = Some ((d, u), pq') → u ∈ visited →
  order_inv dist pq' visited.
Proof.
  intros [Hsound Hcomplete Hsettled] Hpop Hu. split; [| |done].
  - intros d' x Hin. apply Hsound, (heappop_elem _ _ _ _ Hpop). by right.
  - intros x dx Hx Hfin Hxvis.
    pose proof (Hcomplete x dx Hx Hfin Hxvis) as Hin.
    apply (heappop_elem _ _ _ _ Hpop) in Hin as [[= -> ->]|Hin]; done.
Qed.

Lemma order_inv_visit dist pq visited d u pq' :
  order_inv dist pq visited → heappop pq = Some ((d, u), pq') → u ∉ visited →
  order_inv dist pq' ({[u]} ∪ visited) ∧ latest u dist ({[u]} ∪ visited).
Proof.
  intros [Hsound Hcomplete Hsettled] Hpop Hu.
  assert ((d, u) ∈ pq) as Hin by (apply (heappop_elem _ _ _ _ Hpop); by left).
  destruct (Hsound d u Hin) as (du & Hdu & Hle).
  split; [split|].
  - intros d' x Hin'. apply Hsound, (heappop_elem _ _ _ _ Hpop). by right.
  - intros x dx Hx Hfin Hxvis.
    assert (x ∉ visited) as Hxvis' by set_solver.
    pose proof (Hcomplete x dx Hx Hfin Hxvis') as Hin'.
    apply (heappop_elem _ _ _ _ Hpop) in Hin' as [[= -> ->]|Hin']; [set_solver|done].
  - intros x y dx dy Hx Hy Hdx Hdy.
    assert ((y ∉ visited) ∧ y ≠ u) as [Hyvis Hyu].
    { rewrite elem_of_union, elem_of_singleton in Hy. split; intros ?; tauto. }
    apply elem_of_union in Hx as [Hx|Hx]; [|eauto].
    apply elem_of_singleton in Hx as ->.
    rewrite Hdu in Hdx. injection Hdx as <-.
    destruct (weq_cases dy winf) as [->|Hfin]; [apply wle_top|].
    pose proof (Hcomplete y dy Hdy Hfin Hyvis) as Hin'.
    apply (heappop_elem _ _ _ _ Hpop) in Hin' as [[= -> ->]|Hin']; [done|].
    eapply wle_trans; [exact Hle|].
    exact (heappop_min _ _ _ _ Hpop Hin').
  - intros x dx du' Hx Hdx Hdu'.
    rewrite Hdu in Hdu'. injection Hdu' as <-.
    apply elem_of_union in Hx as [Hx|Hx].
    + apply elem_of_singleton in Hx as ->.
      rewrite Hdu in Hdx. injection Hdx as <-. apply wle_refl.
    + eauto.
Qed.

(** *** Parent chains *)

Lemma pchain_last parent v p : pchain parent v p → last p = Some v.
Proof. intros [v' Hv|v' u p' Hv Hp]; [done|]. by rewrite last_snoc. Qed.

Lemma pchain_elem parent v p : pchain parent v p → v ∈ p.
Proof.
  intros [v' Hv|v' u p' Hv Hp]; [by left|].
  apply elem_of_app. right. by left.
Qed.

Lemma pchain_keys parent v p x :
  pchain parent v p → x ∈ p → is_Some (parent !! x).
Proof.
  induction 1 as [v Hv|v u p Hv Hp IH].
  - intros ->%list_elem_of_singleton. eauto.
  - intros [Hx|Hx]%elem_of_app; [auto|].
    apply list_elem_of_singleton in Hx as ->. eauto.
Qed.

Lemma pchain_insert parent v p y o :
  pchain parent v p → y ∉ p → pchain (<[y := o]> parent) v p.
Proof.
  induction 1 as [v Hv|v u p Hv Hp IH]; intros Hy.
  - apply pchain_root. rewrite lookup_insert_ne; [done|].
    intros ->. apply Hy. by left.
  - apply not_elem_of_app in Hy as [Hy1 Hy2].
    apply (pchain_link _ v u); [|auto].
    rewrite lookup_insert_ne; [done|].
    intros ->. apply Hy2. by left.
Qed.

Lemma wpath_head p v D : wpath g s v p D → head p = Some s.
Proof.
  induction 1 as [|u v w p D Hp IH Hvw]; [done|].
  destruct p as [|x p]; [done|]. done.
Qed.

Lemma wpath_last p v D : wpath g s v p D → last p = Some v.
Proof. intros [|u v' w p' D' Hp Hvw]; [done|]. by rewrite last_snoc. Qed.

Lemma wpath_reachable p v D : wpath g s v p D → reachable g s v.
Proof.
  induction 1 as [|u v w p D Hp IH Hvw]; [constructor|].
  by eapply reachable_edge.
Qed.

(** Walking the parents yields the chain, reversed. *)
Lemma walk_parents_chain parent v p :
  pchain parent v p →
  ∀ fuel acc, (length p ≤ fuel)%nat →
    walk_parents fuel parent (Some v) acc = Ok (acc ++ reverse p).
Proof.
  induction 1 as [v Hv|v u p Hv Hp IH]; intros fuel acc Hfuel.
  - destruct fuel as [|fuel]; [simpl in Hfuel; lia|].
    simpl. unfold subscript. rewrite Hv. simpl. by destruct fuel.
  - rewrite length_app in Hfuel. simpl in Hfuel.
    destruct fuel as [|fuel]; [lia|].
    simpl. unfold subscript. rewrite Hv. simpl.
    rewrite IH by lia. by rewrite reverse_snoc, <-app_assoc.
Qed.

(** When the first node of the chain has no entry in [parent], the walk
    ends in a [KeyError]. *)
Lemma walk_parents_missing_root parent v p :
  parent !! s = None →
  pchain (<[s := None]> parent) v p → head p = Some s →
  ∀ fuel acc, (length p ≤ fuel)%nat →
    walk_parents fuel parent (Some v) acc = Raise (KeyError (IntKey s)).
Proof.
  intros Hs. induction 1 as [v Hv|v u p Hv Hp IH]; intros Hhead fuel acc Hfuel.
  - injection Hhead as ->.
    destruct fuel as [|fuel]; [simpl in Hfuel; lia|].
    simpl. unfold subscript. by rewrite Hs.
  - rewrite length_app in Hfuel. simpl in Hfuel.
    destruct fuel as [|fuel]; [lia|].
    simpl. unfold subscript.
    destruct (decide (v = s)) as [->|Hne]; [by rewrite Hs|].
    rewrite lookup_insert_ne in Hv by done. rewrite Hv. simpl.
    apply IH; [|lia].
    destruct p as [|x p]; [|done].
    pose proof (pchain_elem _ _ _ Hp) as Hin. by apply elem_of_nil in Hin.
Qed.

(** *** One relaxation, continued *)

(** The edges of [u] handled so far are relaxed. *)
Definition relaxed (du : W) (seen : list (Z * W)) (dist : gmap Z W) : Prop :=
  ∀ v w, (v, w) ∈ seen → ∃ dv, dist !! v = Some dv ∧ wle dv (wadd du w).

Lemma tree_step u v w du dv dist parent pq visited closed :
  targets_in_range g = true →
  tree_inv dist parent pq visited closed → closed ⊆ visited →
  u ∈ visited → v ∉ visited → (v, w) ∈ adj_get g u →
  dist !! u = Some du → dist !! v = Some dv →
  wle w0 w → wltb (wadd du w) dv = true →
  tree_inv (<[v := wadd du w]> dist) (<[v := Some u]> parent)
           ((wadd du w, v) :: pq) visited closed.
Proof.
  intros Hg [Hfin Hclosed Hchain Hdom Hsrc] Hsub Hu Hv Hvw Hdu Hdv Hw Hlt.
  assert (u ≠ v) as Huv by (intros ->; done).
  assert (du ≠ winf) as Hdufin.
  { intros ->. pose proof (wle_add winf w Hw) as Hle.
    pose proof (wlt_wle_trans _ _ _ Hlt (wle_top dv)) as Hlt'.
    exact (wle_wlt_false _ _ Hle Hlt'). }
  split.
  - intros d x [[= -> ->]|Hin]%elem_of_cons; [|eauto].
    by eapply wlt_neq_inf.
  - intros x v' w' dx Hx Hvw'.
    assert (v ≠ x) as Hvx by (intros ->; apply Hv; auto).
    rewrite lookup_insert_ne by done. intros Hdx.
    destruct (Hclosed x v' w' dx Hx Hvw' Hdx) as (dv' & Hdv' & Hle).
    destruct (decide (v = v')) as [<-|Hne].
    + rewrite lookup_insert_eq. eexists. split; [done|].
      rewrite Hdv in Hdv'. injection Hdv' as <-.
      eapply wle_trans; [|exact Hle]. by apply wlt_wle.
    + rewrite lookup_insert_ne by done. eauto.
  - intros x dx. destruct (decide (v = x)) as [<-|Hne].
    + rewrite lookup_insert_eq. intros [= <-] _.
      destruct (Hchain u du Hdu Hdufin) as (p & Hpc & Hwp & Hnd & Hpv).
      assert (v ∉ p) as Hvp.
      { intros Hin. apply Hv. destruct (decide (v = u)) as [->|Hne]; [done|].
        by apply Hpv. }
      exists (p ++ [v]). split; [|split; [|split]].
      * apply (pchain_link _ v u); [apply lookup_insert_eq|by apply pchain_insert].
      * by eapply wpath_edge.
      * apply NoDup_app. split; [done|]. split; [|apply NoDup_singleton].
        intros y Hy ->%list_elem_of_singleton. done.
      * intros y [Hy|Hy]%elem_of_app Hne.
        -- destruct (decide (y = u)) as [->|Hyu]; [done|]. by apply Hpv.
        -- by apply list_elem_of_singleton in Hy.
    + rewrite lookup_insert_ne by done. intros Hdx Hdxfin.
      destruct (Hchain x dx Hdx Hdxfin) as (p & Hpc & Hwp & Hnd & Hpv).
      exists p. split; [|done].
      apply pchain_insert; [done|].
      intros Hin. apply Hv. apply Hpv; [done|congruence].
  - intros x. destruct (decide (v = x)) as [<-|Hne].
    + intros _. left. by eapply targets_in_range_elem.
    + rewrite lookup_insert_ne by done. auto.
  - destruct (decide (v = s)) as [->|Hne].
    + rewrite lookup_insert_eq. eexists. split; [done|]. by eapply wlt_neq_inf.
    + by rewrite lookup_insert_ne.
Qed.

Lemma relaxed_step du seen dist v w du' dv :
  relaxed du seen dist → dist !! v = Some dv →
  wltb (wadd du' w) dv = true →
  relaxed du seen (<[v := wadd du' w]> dist).
Proof.
  intros Hrel Hdv Hlt v' w' Hin.
  destruct (Hrel v' w' Hin) as (dv' & Hdv' & Hle).
  destruct (decide (v = v')) as [<-|Hne].
  - rewrite lookup_insert_eq. eexists. split; [done|].
    rewrite Hdv in Hdv'. injection Hdv' as <-.
    eapply wle_trans; [|exact Hle]. by apply wlt_wle.
  - rewrite lookup_insert_ne by done. eauto.
Qed.

End Invariants.

(** ** Processing one popped node *)

Section Visit.
Context {W : Type} `{WeightLaws W}.
Variable g : Graph W.
Variable s : Z.
Hypothesis Hrange : targets_in_range g = true.

Definition relax_S (u : Z) (pq0 : list (W * Z)) (seen : list (Z * W))
    (dist : gmap Z W) (parent : gmap Z (option Z)) (pq : list (W * Z)) : Prop :=
  struct_inv g s dist pq ∧ is_Some (dist !! u)
  ∧ (length pq ≤ length pq0 + length seen)%nat.

Definition relax_O (u : Z) (du : W) (dist0 : gmap Z W) (visited : gset Z)
    (seen : list (Z * W))
    (dist : gmap Z W) (parent : gmap Z (option Z)) (pq : list (W * Z)) : Prop :=
  dist !! u = Some du ∧ order_inv dist pq visited ∧ latest u dist visited
  ∧ ∀ x, x ∈ visited → dist !! x = dist0 !! x.

(** [parent] is keyed by [range(V)].  A source outside that range has no
    entry; [with_root] gives it the entry [None] that a source inside has,
    so that one invariant covers both cases. *)
Definition parent_keys_ok (parent : gmap Z (option Z)) : Prop :=
  ∀ x, is_Some (parent !! x) → in_range g x.

Definition with_root (parent : gmap Z (option Z)) : gmap Z (option Z) :=
  if decide (in_range g s) then parent else <[s := None]> parent.

Lemma with_root_insert v o parent :
  in_range g v → with_root (<[v := o]> parent) = <[v := o]> (with_root parent).
Proof.
  intros Hv. unfold with_root. destruct (decide (in_range g s)) as [?|Hs]; [done|].
  apply insert_insert_ne. intros ->. done.
Qed.

Definition relax_T (du : W) (visited closed : gset Z) (seen : list (Z * W))
    (dist : gmap Z W) (parent : gmap Z (option Z)) (pq : list (W * Z)) : Prop :=
  tree_inv g s dist (with_root parent) pq visited closed ∧ relaxed du seen dist
  ∧ parent_keys_ok parent.

Lemma relax_S_step u pq0 seen dist parent pq v w :
  reachable g s u →
  relax_S u pq0 seen dist parent pq → (v, w) ∈ adj_get g u →
  ∃ du dv, dist !! u = Some du ∧ dist !! v = Some dv ∧
    if wltb (wadd du w) dv
    then relax_S u pq0 (seen ++ [(v, w)]) (<[v := wadd du w]> dist)
                 (<[v := Some u]> parent) ((wadd du w, v) :: pq)
    else relax_S u pq0 (seen ++ [(v, w)]) dist parent pq.
Proof.
  intros Hu (Hs & [du Hdu] & Hlen) Hvw.
  pose proof (targets_in_range_elem _ _ _ _ Hrange Hvw) as Hv.
  destruct (si_dom _ _ _ _ Hs v Hv) as [dv Hdv].
  exists du, dv. split; [done|]. split; [done|].
  destruct (wltb (wadd du w) dv); (split; [|split]).
  - by eapply struct_step.
  - destruct (decide (v = u)) as [->|Hne].
    + rewrite lookup_insert_eq. eauto.
    + rewrite lookup_insert_ne by done. eauto.
  - rewrite length_app. simpl. lia.
  - done.
  - eauto.
  - rewrite length_app. simpl. lia.
Qed.

Lemma relax_struct u dist parent pq :
  struct_inv g s dist pq → is_Some (dist !! u) → reachable g s u →
  ∃ dist' parent' pq',
    relax_parent u (adj_get g u) dist parent pq = Ok (dist', parent', pq')
    ∧ struct_inv g s dist' pq'
    ∧ (length pq' ≤ length pq + length (adj_get g u))%nat.
Proof.
  intros Hs Hdu Hu.
  destruct (relax_parent_rule (relax_S u pq) u (adj_get g u)) with
    (seen := @nil (Z * W)) (dist := dist) (parent := parent) (pq := pq)
    as (d' & p' & q' & Hr & Hs' & _ & Hlen).
  - intros. by apply relax_S_step.
  - split; [done|]. split; [done|]. simpl. lia.
  - exists d', p', q'. done.
Qed.

Section Nonneg.
Hypothesis Hnonneg : nonneg_weights g = true.

Lemma relax_SO_step u du dist0 visited pq0 seen dist parent pq v w :
  reachable g s u → u ∈ visited →
  relax_S u pq0 seen dist parent pq ∧ relax_O u du dist0 visited seen dist parent pq →
  (v, w) ∈ adj_get g u →
  ∃ du' dv, dist !! u = Some du' ∧ dist !! v = Some dv ∧
    if wltb (wadd du' w) dv
    then (v ∉ visited) ∧ du' = du
         ∧ relax_S u pq0 (seen ++ [(v, w)]) (<[v := wadd du' w]> dist)
                 (<[v := Some u]> parent) ((wadd du' w, v) :: pq)
         ∧ relax_O u du dist0 visited (seen ++ [(v, w)]) (<[v := wadd du' w]> dist)
                 (<[v := Some u]> parent) ((wadd du' w, v) :: pq)
    else du' = du
         ∧ relax_S u pq0 (seen ++ [(v, w)]) dist parent pq
         ∧ relax_O u du dist0 visited (seen ++ [(v, w)]) dist parent pq.
Proof.
  intros Hu Huvis [HS (Hdu & Ho & Hlatest & Hsame)] Hvw.
  destruct (relax_S_step u pq0 seen dist parent pq v w Hu HS Hvw)
    as (du' & dv & Hdu' & Hdv & Hnext).
  assert (du' = du) as -> by congruence.
  pose proof (nonneg_weights_elem _ _ _ _ Hnonneg Hvw) as Hw.
  exists du, dv. split; [done|]. split; [done|].
  destruct (wltb (wadd du w) dv) eqn:Hlt; [|done].
  pose proof (relax_target_unvisited _ _ _ _ _ _ _ Hlatest Hdu Hdv Hw Hlt) as Hv.
  destruct (order_step _ _ _ _ _ _ _ _ Ho Hlatest Huvis Hdu Hdv Hw Hlt) as [Ho' Hl'].
  assert (v ≠ u) as Hne by (intros ->; done).
  split; [done|]. split; [done|]. split; [done|].
  split; [by rewrite lookup_insert_ne|]. split; [done|]. split; [done|].
  intros x Hx. rewrite lookup_insert_ne; [auto|]. intros ->. done.
Qed.

(** Relaxing the edges of a node that has just been visited keeps the
    order invariant and leaves the distances of visited nodes alone. *)
Lemma relax_order u du dist parent pq visited :
  struct_inv g s dist pq → reachable g s u → u ∈ visited →
  dist !! u = Some du → order_inv dist pq visited → latest u dist visited →
  ∃ dist' parent' pq',
    relax_parent u (adj_get g u) dist parent pq = Ok (dist', parent', pq')
    ∧ struct_inv g s dist' pq'
    ∧ order_inv dist' pq' visited
    ∧ (∀ x, x ∈ visited → dist' !! x = dist !! x)
    ∧ (length pq' ≤ length pq + length (adj_get g u))%nat.
Proof.
  intros Hs Hu Huvis Hdu Ho Hlatest.
  destruct (relax_parent_rule
              (λ seen dist' parent' pq',
                 relax_S u pq seen dist' parent' pq'
                 ∧ relax_O u du dist visited seen dist' parent' pq')
              u (adj_get g u)) with
    (seen := @nil (Z * W)) (dist := dist) (parent := parent) (pq := pq)
    as (d' & p' & q' & Hr & (Hs' & _ & Hlen) & (_ & Ho' & _ & Hsame)).
  - intros seen dist1 parent1 pq1 v w HP Hvw.
    destruct (relax_SO_step u du dist visited pq seen dist1 parent1 pq1 v w
                Hu Huvis HP Hvw) as (du' & dv & Hdu' & Hdv & Hnext).
    exists du', dv. split; [done|]. split; [done|].
    destruct (wltb (wadd du' w) dv); tauto.
  - split; [split; [done|]; split; [eauto|simpl; lia]|].
    split; [done|]. split; [done|]. split; [done|]. done.
  - exists d', p', q'. done.
Qed.

Lemma relax_SOT_step u du dist0 visited closed pq0 seen dist parent pq v w :
  reachable g s u → u ∈ visited → closed ⊆ visited →
  (relax_S u pq0 seen dist parent pq
   ∧ relax_O u du dist0 visited seen dist parent pq)
  ∧ relax_T du visited closed seen dist parent pq →
  (v, w) ∈ adj_get g u →
  ∃ du' dv, dist !! u = Some du' ∧ dist !! v = Some dv ∧
    if wltb (wadd du' w) dv
    then (relax_S u pq0 (seen ++ [(v, w)]) (<[v := wadd du' w]> dist)
                 (<[v := Some u]> parent) ((wadd du' w, v) :: pq)
          ∧ relax_O u du dist0 visited (seen ++ [(v, w)]) (<[v := wadd du' w]> dist)
                 (<[v := Some u]> parent) ((wadd du' w, v) :: pq))
         ∧ relax_T du visited closed (seen ++ [(v, w)]) (<[v := wadd du' w]> dist)
                 (<[v := Some u]> parent) ((wadd du' w, v) :: pq)
    else (relax_S u pq0 (seen ++ [(v, w)]) dist parent pq
          ∧ relax_O u du dist0 visited (seen ++ [(v, w)]) dist parent pq)
         ∧ relax_T du visited closed (seen ++ [(v, w)]) dist parent pq.
Proof.
  intros Hu Huvis Hsub [HSO (Ht & Hrel & Hkeys)] Hvw.
  destruct (relax_SO_step u du dist0 visited pq0 seen dist parent pq v w
              Hu Huvis HSO Hvw) as (du' & dv & Hdu' & Hdv & Hnext).
  pose proof (nonneg_weights_elem _ _ _ _ Hnonneg Hvw) as Hw.
  pose proof (targets_in_range_elem _ _ _ _ Hrange Hvw) as Hvr.
  exists du', dv. split; [done|]. split; [done|].
  destruct (wltb (wadd du' w) dv) eqn:Hlt.
  - destruct Hnext as (Hv & -> & HS' & HO'). split; [done|].
    split; [|split].
    + rewrite with_root_insert by done. by eapply tree_step.
    + intros v' w' [Hin|Hin]%elem_of_app.
      * by eapply relaxed_step.
      * apply list_elem_of_singleton in Hin as [= -> ->].
        rewrite lookup_insert_eq. eexists. split; [done|apply wle_refl].
    + intros x. destruct (decide (v = x)) as [<-|Hne]; [done|].
      rewrite lookup_insert_ne by done. auto.
  - destruct Hnext as (-> & HS' & HO'). split; [done|].
    split; [done|]. split; [|done].
    intros v' w' [Hin|Hin]%elem_of_app; [auto|].
    apply list_elem_of_singleton in Hin as [= -> ->]. eauto.
Qed.

Lemma relax_tree u du dist parent pq visited closed :
  struct_inv g s dist pq → reachable g s u → u ∈ visited → closed ⊆ visited →
  dist !! u = Some du → order_inv dist pq visited → latest u dist visited →
  tree_inv g s dist (with_root parent) pq visited closed →
  parent_keys_ok parent →
  ∃ dist' parent' pq',
    relax_parent u (adj_get g u) dist parent pq = Ok (dist', parent', pq')
    ∧ tree_inv g s dist' (with_root parent') pq' visited closed
    ∧ relaxed du (adj_get g u) dist'
    ∧ parent_keys_ok parent'.
Proof.
  intros Hs Hu Huvis Hsub Hdu Ho Hlatest Ht Hkeys.
  destruct (relax_parent_rule
              (λ seen dist' parent' pq',
                 (relax_S u pq seen dist' parent' pq'
                  ∧ relax_O u du dist visited seen dist' parent' pq')
                 ∧ relax_T du visited closed seen dist' parent' pq')
              u (adj_get g u)) with
    (seen := @nil (Z * W)) (dist := dist) (parent := parent) (pq := pq)
    as (d' & p' & q' & Hr & _ & (Ht' & Hrel & Hkeys')).
  - intros seen dist1 parent1 pq1 v w HP Hvw.
    by apply relax_SOT_step.
  - split; [split|].
    + split; [done|]. split; [eauto|simpl; lia].
    + split; [done|]. split; [done|]. split; [done|]. done.
    + split; [done|]. split; [|done].
      intros v w Hin. by apply elem_of_nil in Hin.
  - exists d', p', q'. done.
Qed.

End Nonneg.
End Visit.

(** ** The two [while] loops *)

Section Loops.
Context {W : Type} `{WeightLaws W}.
Variable g : Graph W.
Variable s : Z.
Hypothesis Hrange : targets_in_range g = true.

(** Both loops stop within the fuel bound and raise nothing; what they
    leave satisfies the structural invariant. *)
Lemma dijkstra_loop_struct (fuel : nat) :
  ∀ dist pq visited,
    struct_inv g s dist pq →
    (length pq + unvisited_adj g visited < fuel)%nat →
    ∃ dist', dijkstra_loop fuel g dist pq visited = Ok dist'
             ∧ struct_inv g s dist' [].
Proof.
  induction fuel as [|fuel IH]; intros dist pq visited Hs Hfuel; [lia|].
  simpl. destruct (heappop pq) as [[[d u] pq']|] eqn:Hpop.
  - pose proof (heappop_length _ _ _ Hpop) as Hlen.
    pose proof (struct_inv_pop _ _ _ _ _ _ Hs Hpop) as Hs'.
    destruct (decide (u ∈ visited)) as [Hu|Hu].
    + apply IH; [done|lia].
    + assert ((d, u) ∈ pq) as Hin by (apply (heappop_elem _ _ _ _ Hpop); by left).
      destruct (relax_struct g s Hrange u dist ∅ pq' Hs'
                  (si_pq _ _ _ _ Hs _ _ Hin) (si_reach_pq _ _ _ _ Hs _ _ Hin))
        as (d' & p' & q' & Hr & Hs'' & Hlen').
      rewrite (relax_parent_relax u _ dist ∅ pq'), Hr. simpl.
      pose proof (unvisited_adj_visit g visited u Hu).
      apply IH; [done|lia].
  - apply heappop_None in Hpop as ->. eauto.
Qed.

Lemma shortest_path_loop_struct (fuel : nat) (t : Z) :
  ¬ reachable g s t →
  ∀ dist parent pq visited,
    struct_inv g s dist pq →
    (length pq + unvisited_adj g visited < fuel)%nat →
    ∃ dist' parent',
      shortest_path_loop fuel g t dist parent pq visited = Ok (dist', parent')
      ∧ struct_inv g s dist' [].
Proof.
  intros Ht.
  induction fuel as [|fuel IH]; intros dist parent pq visited Hs Hfuel; [lia|].
  simpl. destruct (heappop pq) as [[[d u] pq']|] eqn:Hpop.
  - pose proof (heappop_length _ _ _ Hpop) as Hlen.
    pose proof (struct_inv_pop _ _ _ _ _ _ Hs Hpop) as Hs'.
    assert ((d, u) ∈ pq) as Hin by (apply (heappop_elem _ _ _ _ Hpop); by left).
    pose proof (si_reach_pq _ _ _ _ Hs _ _ Hin) as Hu.
    destruct (decide (u = t)) as [->|Hne]; [done|].
    destruct (decide (u ∈ visited)) as [Huvis|Huvis].
    + apply IH; [done|lia].
    + destruct (relax_struct g s Hrange u dist parent pq' Hs'
                  (si_pq _ _ _ _ Hs _ _ Hin) Hu)
        as (d' & p' & q' & Hr & Hs'' & Hlen').
      rewrite Hr. simpl.
      pose proof (unvisited_adj_visit g visited u Huvis).
      apply IH; [done|lia].
  - apply heappop_None in Hpop as ->. eauto.
Qed.

Section Nonneg.
Hypothesis Hnonneg : nonneg_weights g = true.

(** Once a node is visited its distance is final. *)
Lemma dijkstra_loop_stable (fuel : nat) (t : Z) (D : W) :
  ∀ dist pq visited,
    struct_inv g s dist pq → order_inv dist pq visited →
    t ∈ visited → dist !! t = Some D →
    (length pq + unvisited_adj g visited < fuel)%nat →
    ∃ dist', dijkstra_loop fuel g dist pq visited = Ok dist'
             ∧ dist' !! t = Some D.
Proof.
  induction fuel as [|fuel IH]; intros dist pq visited Hs Ho Ht HD Hfuel; [lia|].
  simpl. destruct (heappop pq) as [[[d u] pq']|] eqn:Hpop; [|eauto].
  pose proof (heappop_length _ _ _ Hpop) as Hlen.
  pose proof (struct_inv_pop _ _ _ _ _ _ Hs Hpop) as Hs'.
  destruct (decide (u ∈ visited)) as [Hu|Hu].
  - apply IH; [done|by eapply order_inv_skip|done|done|lia].
  - assert ((d, u) ∈ pq) as Hin by (apply (heappop_elem _ _ _ _ Hpop); by left).
    destruct (si_pq _ _ _ _ Hs _ _ Hin) as [du Hdu].
    destruct (order_inv_visit _ _ _ _ _ _ Ho Hpop Hu) as [Ho' Hlatest].
    destruct (relax_order g s Hrange Hnonneg u du dist ∅ pq' ({[u]} ∪ visited)
                Hs' (si_reach_pq _ _ _ _ Hs _ _ Hin)) as
      (d' & p' & q' & Hr & Hs'' & Ho'' & Hsame & Hlen');
      [set_solver|done|done|done|].
    rewrite (relax_parent_relax u _ dist ∅ pq'), Hr. simpl.
    pose proof (unvisited_adj_visit g visited u Hu).
    apply IH; [done|done|set_solver| |lia].
    rewrite Hsame by set_solver. done.
Qed.

(** Up to the [break] the two loops run in lockstep, and what [dijkstra]
    does after it leaves the target's distance alone. *)
Lemma loops_agree (fuel : nat) (t : Z) :
  ∀ dist parent pq visited,
    struct_inv g s dist pq → order_inv dist pq visited → t ∉ visited →
    (length pq + unvisited_adj g visited < fuel)%nat →
    ∃ dist' parent' distD,
      shortest_path_loop fuel g t dist parent pq visited = Ok (dist', parent')
      ∧ dijkstra_loop fuel g dist pq visited = Ok distD
      ∧ distD !! t = dist' !! t.
Proof.
  induction fuel as [|fuel IH]; intros dist parent pq visited Hs Ho Ht Hfuel; [lia|].
  simpl. destruct (heappop pq) as [[[d u] pq']|] eqn:Hpop;
    [|by exists dist, parent, dist].
  pose proof (heappop_length _ _ _ Hpop) as Hlen.
  pose proof (struct_inv_pop _ _ _ _ _ _ Hs Hpop) as Hs'.
  assert ((d, u) ∈ pq) as Hin by (apply (heappop_elem _ _ _ _ Hpop); by left).
  destruct (si_pq _ _ _ _ Hs _ _ Hin) as [du Hdu].
  destruct (decide (u = t)) as [->|Hne].
  - rewrite decide_False by done.
    destruct (order_inv_visit _ _ _ _ _ _ Ho Hpop Ht) as [Ho' Hlatest].
    destruct (relax_order g s Hrange Hnonneg t du dist ∅ pq' ({[t]} ∪ visited)
                Hs' (si_reach_pq _ _ _ _ Hs _ _ Hin)) as
      (d' & p' & q' & Hr & Hs'' & Ho'' & Hsame & Hlen');
      [set_solver|done|done|done|].
    rewrite (relax_parent_relax t _ dist ∅ pq'), Hr. simpl.
    pose proof (unvisited_adj_visit g visited t Ht).
    destruct (dijkstra_loop_stable fuel t du d' q' ({[t]} ∪ visited))
      as (distD & HD & HDt); [done|done|set_solver| |lia|].
    { rewrite Hsame by set_solver. done. }
    exists dist, parent, distD. by rewrite Hdu.
  - destruct (decide (u ∈ visited)) as [Hu|Hu].
    + apply IH; [done|by eapply order_inv_skip|done|lia].
    + destruct (order_inv_visit _ _ _ _ _ _ Ho Hpop Hu) as [Ho' Hlatest].
      destruct (relax_order g s Hrange Hnonneg u du dist parent pq' ({[u]} ∪ visited)
                  Hs' (si_reach_pq _ _ _ _ Hs _ _ Hin)) as
        (d' & p' & q' & Hr & Hs'' & Ho'' & Hsame & Hlen');
        [set_solver|done|done|done|].
      rewrite (relax_parent_relax u _ dist parent pq'), Hr. simpl.
      pose proof (unvisited_adj_visit g visited u Hu).
      apply IH; [done|done| |lia].
      rewrite elem_of_union, elem_of_singleton. intros [?|?]; [congruence|done].
Qed.

Lemma tree_inv_pop dist parent pq visited m pq' u :
  tree_inv g s dist parent pq visited visited →
  heappop pq = Some (m, pq') →
  tree_inv g s dist parent pq' ({[u]} ∪ visited) visited.
Proof.
  intros [Hfin Hclosed Hchain Hdom Hsrc] Hpop. split; [|done| |done|done].
  - intros d x Hin. apply (Hfin d x), (heappop_elem _ _ _ _ Hpop). by right.
  - intros v dv Hdv Hfinv.
    destruct (Hchain v dv Hdv Hfinv) as (p & Hpc & Hwp & Hnd & Hpv).
    exists p. split; [done|]. split; [done|]. split; [done|].
    intros x Hx Hne. apply elem_of_union. right. auto.
Qed.

(** The loop of [get_shortest_path] ends with the queue empty or with an
    entry of the target in it, and with all three invariants. *)
Lemma shortest_path_loop_tree (fuel : nat) (t : Z) :
  ∀ dist parent pq visited,
    struct_inv g s dist pq → order_inv dist pq visited →
    tree_inv g s dist (with_root g s parent) pq visited visited →
    parent_keys_ok g parent →
    (length pq + unvisited_adj g visited < fuel)%nat →
    ∃ dist' parent' pq' visited',
      shortest_path_loop fuel g t dist parent pq visited = Ok (dist', parent')
      ∧ struct_inv g s dist' pq' ∧ order_inv dist' pq' visited'
      ∧ tree_inv g s dist' (with_root g s parent') pq' visited' visited'
      ∧ parent_keys_ok g parent'
      ∧ (pq' = [] ∨ ∃ d, (d, t) ∈ pq').
Proof.
  induction fuel as [|fuel IH];
    intros dist parent pq visited Hs Ho Htree Hkeys Hfuel; [lia|].
  simpl. destruct (heappop pq) as [[[d u] pq']|] eqn:Hpop.
  2:{ apply heappop_None in Hpop as ->.
      exists dist, parent, [], visited. eauto 10. }
  pose proof (heappop_length _ _ _ Hpop) as Hlen.
  pose proof (struct_inv_pop _ _ _ _ _ _ Hs Hpop) as Hs'.
  assert ((d, u) ∈ pq) as Hin by (apply (heappop_elem _ _ _ _ Hpop); by left).
  destruct (si_pq _ _ _ _ Hs _ _ Hin) as [du Hdu].
  destruct (decide (u = t)) as [->|Hne].
  { exists dist, parent, pq, visited. eauto 10. }
  destruct (decide (u ∈ visited)) as [Hu|Hu].
  - apply IH; [done|by eapply order_inv_skip| |done|lia].
    destruct Htree as [Hfin Hclosed Hchain Hdom Hsrc]. split; try done.
    intros d' x Hin'. apply (Hfin d' x), (heappop_elem _ _ _ _ Hpop). by right.
  - destruct (order_inv_visit _ _ _ _ _ _ Ho Hpop Hu) as [Ho' Hlatest].
    pose proof (si_reach_pq _ _ _ _ Hs _ _ Hin) as Hreach.
    destruct (relax_order g s Hrange Hnonneg u du dist parent pq' ({[u]} ∪ visited)
                Hs' Hreach) as
      (d' & p' & q' & Hr & Hs'' & Ho'' & Hsame & Hlen');
      [set_solver|done|done|done|].
    destruct (relax_tree g s Hrange Hnonneg u du dist parent pq'
                ({[u]} ∪ visited) visited Hs' Hreach) as
      (d2 & p2 & q2 & Hr2 & Htree' & Hrel & Hkeys');
      [set_solver|set_solver|done|done|done|by eapply tree_inv_pop|done|].
    rewrite Hr in Hr2. injection Hr2 as <- <- <-.
    rewrite Hr. simpl.
    pose proof (unvisited_adj_visit g visited u Hu).
    apply IH; [done|done| |done|lia].
    destruct Htree' as [Hfin Hclosed Hchain Hdom Hsrc]. split; try done.
    intros x v w dx Hx Hvw Hdx.
    apply elem_of_union in Hx as [Hx|Hx]; [|eauto].
    apply elem_of_singleton in Hx as ->.
    rewrite Hsame in Hdx by (apply elem_of_union_l, elem_of_singleton; done).
    rewrite Hdu in Hdx. injection Hdx as <-. by apply Hrel.
Qed.

End Nonneg.
End Loops.

(** ** The solver's results *)

Section SolverResults.
Context {W : Type} `{WeightLaws W}.
Variable g : Graph W.
Variable s : Z.

Lemma initial_dist_lookup (v : Z) :
  (<[s := w0]> (dict_of_range (V g) winf) : gmap Z W) !! v =
  if decide (s = v) then Some w0
  else if decide (0 ≤ v < V g) then Some winf else None.
Proof.
  destruct (decide (s = v)) as [->|Hne].
  - by rewrite lookup_insert_eq.
  - rewrite lookup_insert_ne by done. apply dict_of_range_lookup.
Qed.

Lemma initial_struct :
  struct_inv g s (<[s := w0]> (dict_of_range (V g) winf)) [(w0, s)].
Proof.
  split.
  - intros v Hv. rewrite initial_dist_lookup.
    destruct (decide (s = v)); [eauto|]. rewrite decide_True by done. eauto.
  - intros v. rewrite initial_dist_lookup.
    destruct (decide (s = v)) as [->|Hne]; [by right|].
    destruct (decide (0 ≤ v < V g)); [by left|]. by intros [? ?].
  - intros d x [= -> ->]%list_elem_of_singleton. rewrite lookup_insert_eq. eauto.
  - intros v dv. rewrite initial_dist_lookup.
    destruct (decide (s = v)) as [->|Hne]; [intros; constructor|].
    destruct (decide (0 ≤ v < V g)); [|done]. by intros [= <-].
  - intros d x [= -> ->]%list_elem_of_singleton. constructor.
Qed.

Lemma initial_order :
  order_inv (<[s := w0]> (dict_of_range (V g) winf)) [(w0, s)] ∅.
Proof.
  split.
  - intros d x [= -> ->]%list_elem_of_singleton. rewrite lookup_insert_eq.
    eexists. split; [done|apply wle_refl].
  - intros x dx. rewrite initial_dist_lookup.
    destruct (decide (s = x)) as [->|Hne]; [intros [= <-] _ _; by left|].
    destruct (decide (0 ≤ x < V g)); [|done]. by intros [= <-].
  - intros x y dx dy Hx. by apply not_elem_of_empty in Hx.
Qed.

Lemma initial_parent_keys : parent_keys_ok g (dict_of_range (V g) None).
Proof.
  intros x. rewrite dict_of_range_lookup.
  destruct (decide (0 ≤ x < V g)); [done|]. by intros [? ?].
Qed.

Lemma initial_root :
  with_root g s (dict_of_range (V g) None) !! s = Some None.
Proof.
  unfold with_root. destruct (decide (in_range g s)) as [Hs|Hs].
  - rewrite dict_of_range_lookup. by rewrite decide_True by done.
  - apply lookup_insert_eq.
Qed.

Lemma initial_tree :
  tree_inv g s (<[s := w0]> (dict_of_range (V g) winf))
           (with_root g s (dict_of_range (V g) None)) [(w0, s)] ∅ ∅.
Proof.
  split.
  - intros d x [= -> ->]%list_elem_of_singleton.
    eapply wlt_neq_inf, w0_finite.
  - intros x v w dx Hx. by apply not_elem_of_empty in Hx.
  - intros v dv. rewrite initial_dist_lookup.
    destruct (decide (s = v)) as [<-|Hne].
    + intros [= <-] _. exists [s]. split; [|split; [|split]].
      * apply pchain_root, initial_root.
      * constructor.
      * apply NoDup_singleton.
      * intros x ->%list_elem_of_singleton. done.
    + destruct (decide (0 ≤ v < V g)); [|done]. by intros [= <-].
  - intros x. unfold with_root.
    destruct (decide (in_range g s)) as [Hs|Hs].
    + intros Hx. left. by apply initial_parent_keys.
    + destruct (decide (s = x)) as [->|Hne]; [by right|].
      rewrite lookup_insert_ne by done. intros Hx. left.
      by apply initial_parent_keys.
  - exists w0. rewrite lookup_insert_eq. split; [done|].
    eapply wlt_neq_inf, w0_finite.
Qed.

Lemma initial_measure (fuel : nat) :
  (fuel_bound g ≤ fuel)%nat →
  (length [(w0, s)] + unvisited_adj g ∅ < fuel)%nat.
Proof. rewrite unvisited_adj_empty. unfold fuel_bound. simpl. lia. Qed.

Lemma chain_length parent v p :
  pchain parent v p → NoDup p →
  (∀ x, is_Some (parent !! x) → in_range g x ∨ x = s) →
  (length p ≤ S (Z.to_nat (V g)))%nat.
Proof.
  intros Hp Hnd Hdom. rewrite <-(length_seqZ 0 (V g)).
  change (S (length (seqZ 0 (V g)))) with (length (s :: seqZ 0 (V g))).
  apply submseteq_length, NoDup_submseteq; [done|].
  intros x Hx.
  destruct (Hdom x (pchain_keys _ _ _ _ Hp Hx)) as [Hr| ->]; [|by left].
  right. apply elem_of_seqZ. unfold in_range in Hr. lia.
Qed.

Lemma reachable_in_range (t : Z) :
  targets_in_range g = true → in_range g s → reachable g s t → in_range g t.
Proof.
  intros Hg Hs. induction 1 as [|u v w _ _ Hvw]; [done|].
  by eapply targets_in_range_elem.
Qed.

(** With an unreachable target the loop of [get_shortest_path] runs until
    the queue is empty. *)
Lemma unreachable_loop (fuel : nat) (t : Z) :
  targets_in_range g = true →
  ¬ reachable g s t →
  (fuel_bound g ≤ fuel)%nat →
  ∃ dist' parent',
    shortest_path_loop fuel g t (<[s := w0]> (dict_of_range (V g) winf))
      (dict_of_range (V g) None) [(w0, s)] ∅ = Ok (dist', parent')
    ∧ struct_inv g s dist' [].
Proof.
  intros Hg Hunreach Hfuel.
  exact (shortest_path_loop_struct g s Hg fuel t Hunreach _
           (dict_of_range (V g) None) _ ∅ initial_struct
           (initial_measure fuel Hfuel)).
Qed.

Lemma unreachable_dist (t : Z) (dist : gmap Z W) :
  in_range g t → ¬ reachable g s t →
  struct_inv g s dist [] → dist !! t = Some winf.
Proof.
  intros Ht Hunreach Hs. destruct (si_dom _ _ _ _ Hs t Ht) as [dt Hdt].
  destruct (weq_cases dt winf) as [->|Hfin]; [done|].
  destruct Hunreach. by eapply si_reach_dist.
Qed.

Lemma unreachable_shortest_path (fuel : nat) (t : Z) :
  targets_in_range g = true →
  in_range g t →
  ¬ reachable g s t →
  (fuel_bound g ≤ fuel)%nat →
  get_shortest_path fuel g s t = Ok ([], winf).
Proof.
  intros Hg Ht Hunreach Hfuel. unfold get_shortest_path.
  destruct (unreachable_loop fuel t Hg Hunreach Hfuel) as (dist' & parent' & Hr & Hs).
  rewrite Hr. simpl. unfold subscript.
  rewrite (unreachable_dist t _ Ht Hunreach Hs). simpl.
  by rewrite weqb_refl.
Qed.

(** C3, as amended.  In a graph whose adjacency targets lie in [[0, V)], a
    target in [[0, V)] that cannot be reached from the source makes
    [get_shortest_path] return the empty path with [float('inf')], with no
    exception, and is mapped to [float('inf')] by [dijkstra]. *)
Theorem unreachable_target (fuel : nat) (t : Z) :
  targets_in_range g = true →
  in_range g t →
  ¬ reachable g s t →
  (fuel_bound g ≤ fuel)%nat →
  get_shortest_path fuel g s t = Ok ([], winf)
  ∧ ∃ dist, dijkstra fuel g s = Ok dist ∧ dist !! t = Some winf.
Proof.
  intros Hg Ht Hunreach Hfuel. split.
  - by apply unreachable_shortest_path.
  - destruct (dijkstra_loop_struct g s Hg fuel _ _ ∅ initial_struct
                (initial_measure fuel Hfuel)) as (dist' & Hr & Hs).
    exists dist'. split; [done|]. by apply unreachable_dist.
Qed.

(** A target outside [[0, V)] has no entry in [dist] unless it is the
    source, and none in [parent] at all. *)
Lemma target_out_of_range (fuel : nat) (t : Z) :
  targets_in_range g = true →
  ¬ in_range g t →
  (fuel_bound g ≤ fuel)%nat →
  get_shortest_path fuel g s t = Raise (KeyError (IntKey t))
  ∧ (t ≠ s →
     ∃ dist' parent',
       shortest_path_loop fuel g t (<[s := w0]> (dict_of_range (V g) winf))
         (dict_of_range (V g) None) [(w0, s)] ∅ = Ok (dist', parent')
       ∧ dist' !! t = None).
Proof.
  intros Hg Ht Hfuel.
  destruct (decide (t = s)) as [->|Hne].
  - split; [|done]. unfold get_shortest_path.
    destruct fuel as [|fuel]; [unfold fuel_bound in Hfuel; lia|].
    simpl. rewrite decide_True by done. simpl.
    unfold subscript. rewrite lookup_insert_eq. simpl.
    rewrite weqb_neq by (eapply wlt_neq_inf, w0_finite).
    rewrite dict_of_range_lookup. by rewrite decide_False by done.
  - assert (¬ reachable g s t) as Hunreach.
    { intros Hr. destruct Hr as [|u v w _ Hvw]; [done|].
      apply Ht. by eapply targets_in_range_elem. }
    destruct (unreachable_loop fuel t Hg Hunreach Hfuel) as (dist' & parent' & Hr & Hs).
    assert (dist' !! t = None) as Hnone.
    { destruct (dist' !! t) as [dt|] eqn:E; [|done].
      destruct (si_keys _ _ _ _ Hs t) as [?|?]; [eauto|done|done]. }
    split; [|intros _; eauto].
    unfold get_shortest_path. rewrite Hr. simpl. unfold subscript. by rewrite Hnone.
Qed.

Section Nonneg.
Hypothesis Hrange : targets_in_range g = true.
Hypothesis Hnonneg : nonneg_weights g = true.

(** What [get_shortest_path] returns, read off the state its loop ends
    in: with a finite distance for the target the parents lead back to the
    source, and the walk along them succeeds if the source has an entry in
    [parent]. *)
Lemma get_shortest_path_result (fuel : nat) (t : Z) :
  in_range g t →
  (fuel_bound g ≤ fuel)%nat →
  ∃ dist' parent' pq' visited' D,
    shortest_path_loop fuel g t (<[s := w0]> (dict_of_range (V g) winf))
      (dict_of_range (V g) None) [(w0, s)] ∅ = Ok (dist', parent')
    ∧ struct_inv g s dist' pq' ∧ order_inv dist' pq' visited'
    ∧ tree_inv g s dist' (with_root g s parent') pq' visited' visited'
    ∧ (pq' = [] ∨ ∃ d, (d, t) ∈ pq')
    ∧ dist' !! t = Some D
    ∧ ((D = winf ∧ get_shortest_path fuel g s t = Ok ([], winf))
       ∨ (D ≠ winf ∧ ∃ p, wpath g s t p D
            ∧ get_shortest_path fuel g s t =
              if decide (in_range g s) then Ok (p, D)
              else Raise (KeyError (IntKey s)))).
Proof.
  intros Ht Hfuel.
  destruct (shortest_path_loop_tree g s Hrange Hnonneg fuel t _ _ _ ∅
              initial_struct initial_order initial_tree initial_parent_keys
              (initial_measure fuel Hfuel))
    as (dist' & parent' & pq' & visited' & Hr & Hs & Ho & Htree & Hkeys & Hexit).
  destruct (si_dom _ _ _ _ Hs t Ht) as [D HD].
  exists dist', parent', pq', visited', D.
  do 6 (split; [done|]).
  unfold get_shortest_path. rewrite Hr. simpl. unfold subscript. rewrite HD. simpl.
  destruct (weq_cases D winf) as [->|Hfin].
  - left. by rewrite weqb_refl.
  - right. split; [done|]. rewrite (weqb_neq _ _ Hfin).
    destruct (ti_chain _ _ _ _ _ _ _ Htree t D HD Hfin) as (p & Hpc & Hwp & Hnd & _).
    exists p. split; [done|].
    pose proof (chain_length _ _ _ Hpc Hnd (ti_dom _ _ _ _ _ _ _ Htree)) as Hlen.
    assert (length p ≤ fuel)%nat as Hlen' by (unfold fuel_bound in Hfuel; lia).
    unfold with_root in Hpc. destruct (decide (in_range g s)) as [Hsrc|Hsrc].
    + rewrite (walk_parents_chain _ _ _ Hpc) by done.
      simpl. by rewrite reverse_involutive.
    + rewrite (walk_parents_missing_root s parent' t p); [done| |done| |done].
      * destruct (parent' !! s) as [o|] eqn:E; [|done].
        destruct Hsrc. apply Hkeys. eauto.
      * by eapply wpath_head.
Qed.

(** With finite weights and no overflow a reachable target ends with a
    finite distance. *)
Lemma reachable_finite `{!NoOverflow W} (t : Z) dist pq visited parent D :
  finite_weights g = true →
  reachable g s t →
  order_inv dist pq visited →
  tree_inv g s dist parent pq visited visited →
  (pq = [] ∨ ∃ d, (d, t) ∈ pq) →
  dist !! t = Some D →
  D ≠ winf.
Proof.
  intros Hfinite Hreach Ho Htree Hexit HD.
  destruct Hexit as [->|[d Hin]].
  - assert (∀ x, reachable g s x → ∃ dx, dist !! x = Some dx ∧ dx ≠ winf) as Hall.
    { induction 1 as [|u v w Hu IH Hvw]; [exact (ti_source _ _ _ _ _ _ _ Htree)|].
      destruct IH as (du & Hdu & Hdufin).
      assert (u ∈ visited) as Huvis.
      { destruct (decide (u ∈ visited)) as [?|Hnot]; [done|].
        pose proof (oi_complete _ _ _ Ho u du Hdu Hdufin Hnot) as Hin.
        by apply elem_of_nil in Hin. }
      destruct (ti_closed _ _ _ _ _ _ _ Htree u v w du Huvis Hvw Hdu)
        as (dv & Hdv & Hle).
      exists dv. split; [done|]. intros ->.
      pose proof (wadd_finite du w (neq_inf_wlt _ Hdufin)
                    (finite_weights_elem _ _ _ _ Hfinite Hvw)) as Hlt.
      exact (wle_wlt_false _ _ Hle Hlt). }
    destruct (Hall t Hreach) as (dt & Hdt & Hdtfin). congruence.
  - destruct (oi_sound _ _ _ Ho d t Hin) as (dt & Hdt & Hle).
    assert (dt = D) as -> by congruence.
    intros ->.
    pose proof (neq_inf_wlt d (ti_finite _ _ _ _ _ _ _ Htree d t Hin)) as Hlt.
    exact (wle_wlt_false _ _ Hle Hlt).
Qed.

Section SourceInRange.
Hypothesis Hsource : in_range g s.

(** C1, as amended.  In a graph whose adjacency targets lie in [[0, V)]
    and whose weights are not negative, for a source in [[0, V)], the
    distance [dijkstra(s)] gives a reachable target is the total distance
    [get_shortest_path(s, v)] returns for it: stopping at the first pop of
    the target does not change the distance. *)
Theorem dijkstra_agrees_with_shortest_path (fuel : nat) (t : Z) :
  reachable g s t →
  (fuel_bound g ≤ fuel)%nat →
  ∃ dist p D,
    dijkstra fuel g s = Ok dist
    ∧ get_shortest_path fuel g s t = Ok (p, D)
    ∧ dist !! t = Some D.
Proof.
  intros Hreach Hfuel.
  pose proof (reachable_in_range t Hrange Hsource Hreach) as Ht.
  destruct (get_shortest_path_result fuel t Ht Hfuel)
    as (dist' & parent' & pq' & visited' & D & Hr & _ & _ & _ & _ & HD & Hres).
  destruct (loops_agree g s Hrange Hnonneg fuel t _ (dict_of_range (V g) None) _ ∅
              initial_struct initial_order) as (d2 & p2 & distD & Hr2 & HrD & Heq);
    [set_solver|by apply initial_measure|].
  rewrite Hr in Hr2. injection Hr2 as <- <-.
  rewrite HD in Heq.
  destruct Hres as [[-> Hres]|[_ (p & _ & Hres)]].
  - by exists distD, [], winf.
  - rewrite decide_True in Hres by done. by exists distD, p, D.
Qed.

End SourceInRange.
End Nonneg.
End SolverResults.

(** ** Integer weights *)

Global Instance num_laws : WeightLaws num.
Proof.
  split.
  - intros [x|] [y|]; simpl; try (split; congruence).
    rewrite Z.eqb_eq. split; congruence.
  - intros [x|]; simpl; [apply Z.ltb_irrefl|done].
  - intros [x|] [y|] [z|]; simpl; try done. rewrite !Z.ltb_lt. lia.
  - intros [x|] [y|]; simpl; try done.
    rewrite !Z.ltb_ge. intros. f_equal. lia.
  - by intros [x|].
  - done.
  - intros [x|] [w|]; simpl; try done.
    rewrite !Z.ltb_ge. lia.
Qed.

Global Instance num_no_overflow : NoOverflow num.
Proof. split. by intros [x|] [w|]. Qed.

(** The road network of the module's self-test. *)
Definition sample_graph : Graph num :=
  run_calls (Graph_init 6)
    [AddEdge 0 1 (Fin 10); AddEdge 0 2 (Fin 5); AddEdge 1 3 (Fin 1);
     AddEdge 2 1 (Fin 3); AddEdge 2 3 (Fin 9); AddEdge 3 4 (Fin 2);
     AddEdge 1 4 (Fin 7); AddEdge 4 5 (Fin 4)].

Example sample_dijkstra :
  map_to_list <$> (match dijkstra 16 sample_graph 0 with Ok d => Some d | _ => None end)
  = Some [(5, Fin 15); (3, Fin 9); (4, Fin 11); (2, Fin 5); (1, Fin 8); (0, Fin 0)].
Proof. vm_compute. reflexivity. Qed.

Example sample_shortest_path :
  get_shortest_path 16 sample_graph 0 5 = Ok ([0; 2; 1; 3; 4; 5], Fin 15).
Proof. vm_compute. reflexivity. Qed.

Lemma sample_reachable_0_5 : reachable sample_graph 0 5.
Proof.
  apply (reachable_edge _ _ 4 5 (Fin 4)); [|vm_compute; set_solver].
  apply (reachable_edge _ _ 1 4 (Fin 7)); [|vm_compute; set_solver].
  apply (reachable_edge _ _ 0 1 (Fin 10)); [|vm_compute; set_solver].
  constructor.
Qed.

Lemma sample_unreachable_5_0 : ¬ reachable sample_graph 5 0.
Proof.
  assert (∀ x, reachable sample_graph 5 x → x = 5) as Hall.
  { induction 1 as [|u v w _ -> Hvw]; [done|].
    vm_compute in Hvw. by apply elem_of_nil in Hvw. }
  intros Hr. by apply Hall in Hr.
Qed.

Lemma dijkstra_agrees_with_shortest_path_witness :
  ∃ dist p D,
    dijkstra 16 sample_graph 0 = Ok dist
    ∧ get_shortest_path 16 sample_graph 0 5 = Ok (p, D)
    ∧ dist !! 5 = Some D.
Proof.
  apply (dijkstra_agrees_with_shortest_path sample_graph 0).
  - reflexivity.
  - reflexivity.
  - unfold in_range. simpl. lia.
  - exact sample_reachable_0_5.
  - vm_compute. lia.
Defined.

Lemma unreachable_target_witness :
  get_shortest_path 16 sample_graph 5 0 = Ok ([], winf)
  ∧ ∃ dist, dijkstra 16 sample_graph 5 = Ok dist ∧ dist !! 0 = Some winf.
Proof.
  apply (unreachable_target sample_graph 5).
  - reflexivity.
  - unfold in_range. simpl. lia.
  - exact sample_unreachable_5_0.
  - vm_compute. lia.
Defined.

(** Graphs with an edge that leaves [[0, V)]: [add_vertex] gives a negative
    identifier an adjacency entry but does not count it in [V].
    [Graph(); add_edge(0, 1, 1); add_edge(1, -1, 1)] has [V = 2], and
    [Graph(); add_edge(0, -1, 1); add_vertex(1)] has [V = 2] too. *)
Definition escaping_edge_graph : Graph num :=
  run_calls (Graph_init 0) [AddEdge 0 1 (Fin 1); AddEdge 1 (-1) (Fin 1)].

Definition isolated_target_graph : Graph num :=
  run_calls (Graph_init 0) [AddEdge 0 (-1) (Fin 1); AddVertex 1].

(** C1, counterexample.  Node 7 is outside [[0, 6)] in the sample network:
    [dijkstra(7)] maps 7 to 0, and [get_shortest_path(7, 7)] raises
    [KeyError(7)] at [parent[7]].  And in the graph of the calls
    [add_edge(0, 1, 1); add_edge(1, -1, 1)] node 1 is reachable from 0:
    [get_shortest_path(0, 1)] returns [([0, 1], 1)], but [dijkstra(0)]
    goes on to relax the edge to -1 and raises [KeyError(-1)]. *)
Lemma agreement_fails_out_of_range :
  (nonneg_weights sample_graph = true
   ∧ reachable sample_graph 7 7
   ∧ (∃ dist, dijkstra 16 sample_graph 7 = Ok dist ∧ dist !! 7 = Some (Fin 0))
   ∧ get_shortest_path 16 sample_graph 7 7 = Raise (KeyError (IntKey 7)))
  ∧ (nonneg_weights escaping_edge_graph = true
     ∧ reachable escaping_edge_graph 0 1
     ∧ dijkstra 16 escaping_edge_graph 0 = Raise (KeyError (IntKey (-1)))
     ∧ get_shortest_path 16 escaping_edge_graph 0 1 = Ok ([0; 1], Fin 1)).
Proof.
  split.
  - split; [reflexivity|]. split; [constructor|]. split; [|reflexivity].
    eexists. split; [vm_compute; reflexivity|reflexivity].
  - split; [reflexivity|]. split; [|split; reflexivity].
    apply (reachable_edge _ _ 0 1 (Fin 1)); [constructor|].
    vm_compute. set_solver.
Qed.

(** C3, counterexample.  After [add_edge(0, -1, 1); add_vertex(1)] the
    target 1 is in [[0, 2)] and cannot be reached from 0, yet both calls
    raise [KeyError(-1)]: the first relaxation reads [dist[-1]]. *)
Lemma unreachable_target_raises :
  in_range isolated_target_graph 1
  ∧ ¬ reachable isolated_target_graph 0 1
  ∧ get_shortest_path 16 isolated_target_graph 0 1 = Raise (KeyError (IntKey (-1)))
  ∧ dijkstra 16 isolated_target_graph 0 = Raise (KeyError (IntKey (-1))).
Proof.
  split; [unfold in_range; simpl; lia|]. split; [|split; reflexivity].
  assert (∀ x, reachable isolated_target_graph 0 x → x = 0 ∨ x = -1) as Hall.
  { induction 1 as [|u v w _ [->| ->] Hvw]; [by left| |].
    - vm_compute in Hvw. apply list_elem_of_singleton in Hvw as [= -> ->]. by right.
    - vm_compute in Hvw. by apply elem_of_nil in Hvw. }
  intros Hr. apply Hall in Hr. lia.
Qed.

(** A graph with a negative node identifier: [Graph()] followed by
    [add_edge(-1, 0, 1)]. *)
Definition negative_source_graph : Graph num :=
  run_calls (Graph_init 0) [AddEdge (-1) 0 (Fin 1)].

Lemma negative_source_reachable : reachable negative_source_graph (-1) 0.
Proof.
  apply (reachable_edge _ _ (-1) 0 (Fin 1)); [constructor|].
  vm_compute. set_solver.
Qed.

Lemma sample_unreachable_7_0 : ¬ reachable sample_graph 7 0.
Proof.
  assert (∀ x, reachable sample_graph 7 x → x = 7) as Hall.
  { induction 1 as [|u v w _ -> Hvw]; [done|].
    vm_compute in Hvw. by apply elem_of_nil in Hvw. }
  intros Hr. by apply Hall in Hr.
Qed.

(** C10, counterexample.  After [add_edge(-1, 0, 1)] on an empty graph the
    vertex count is 1, so the source [-1] is outside [[0, V)] and the target
    [0] is inside, yet [get_shortest_path(-1, 0)] raises [KeyError(-1)]:
    [parent] has no entry for the source.  And on the empty graph, with
    source and target [0] outside [[0, 0)], the target is never relaxed but
    [dist] does have its entry; the call fails at [parent[0]]. *)
Lemma out_of_range_source_rejected :
  V negative_source_graph = 1
  ∧ get_shortest_path 16 negative_source_graph (-1) 0
    = Raise (KeyError (IntKey (-1)))
  ∧ (∃ dist parent,
       shortest_path_loop 16 (Graph_init 0) 0
         (<[0 := w0]> (dict_of_range 0 winf)) (dict_of_range 0 None)
         [(w0, 0)] ∅ = Ok (dist, parent)
       ∧ dist !! 0 = Some (Fin 0))
  ∧ get_shortest_path 16 (Graph_init 0 : Graph num) 0 0
    = Raise (KeyError (IntKey 0)).
Proof.
  split; [reflexivity|]. split; [vm_compute; reflexivity|].
  split; [|vm_compute; reflexivity].
  eexists _, _. split; [vm_compute; reflexivity|]. reflexivity.
Qed.

(** ** Depth-first search *)

(** C5.  [dfs] never returns a traversal when the module is imported: the
    loop header reads the unbound name [u], so every call raises
    [NameError]. *)
Theorem dfs_raises_name_error {W : Type}
    (fuel : nat) (g : Graph W) (source : Z) (visited : option (gset Z)) :
  dfs (S fuel) None g source visited = Raise (NameError "u").
Proof. reflexivity. Qed.

(** On the sample network [dfs(0)] raises; and with the binding [u = 4]
    that the module's self-test leaves behind, it returns [[0; 5]], where a
    depth-first visit from 0 is [[0; 1; 3; 4; 5; 2]]. *)
Example dfs_sample :
  dfs 16 None sample_graph 0 None = Raise (NameError "u")
  ∧ ∃ visited, dfs 16 (Some 4) sample_graph 0 None = Ok ([0; 5], visited).
Proof. split; [reflexivity|]. eexists. vm_compute. reflexivity. Qed.

(** ** Great-circle distance *)

Section GeometryFacts.
Local Open Scope R_scope.

Lemma sin_half_diff_sq (x y : R) : sin ((y - x) / 2) ^ 2 = sin ((x - y) / 2) ^ 2.
Proof.
  replace ((y - x) / 2) with (- ((x - y) / 2)) by lra.
  rewrite sin_neg. ring.
Qed.

Lemma haversine_symmetric (lat1 lon1 lat2 lon2 : R) :
  haversine_distance lat1 lon1 lat2 lon2 = haversine_distance lat2 lon2 lat1 lon1.
Proof.
  unfold haversine_distance. cbv zeta.
  rewrite (sin_half_diff_sq (radians lat1) (radians lat2)).
  rewrite (sin_half_diff_sq (radians lon1) (radians lon2)).
  rewrite (Rmult_comm (cos (radians lat1)) (cos (radians lat2))).
  reflexivity.
Qed.


Lemma sin_sq_half (t : R) : sin (t / 2) ^ 2 = (1 - cos t) / 2.
Proof.
  pose proof (cos_2a_sin (t / 2)) as Hc.
  replace (2 * (t / 2)) with t in Hc by lra. lra.
Qed.

(** The argument of [math.sqrt], and so that of [math.asin], stays in
    their domains. *)
Lemma haversine_arg_range (x y dl : R) :
  0 <= sin ((y - x) / 2) ^ 2 + cos x * cos y * sin (dl / 2) ^ 2 <= 1.
Proof.
  rewrite sin_sq_half.
  pose proof (cos_minus y x) as Hm. pose proof (cos_plus y x) as Hp.
  pose proof (COS_bound (y - x)) as Bm. pose proof (COS_bound (y + x)) as Bp.
  pose proof (SIN_bound (dl / 2)) as Bs.
  set (k := sin (dl / 2) ^ 2).
  assert (0 <= k <= 1) as Hk by (unfold k; nra).
  replace (cos x * cos y) with ((cos (y - x) + cos (y + x)) / 2) by lra.
  nra.
Qed.

End GeometryFacts.

(** ** The great-circle distance in binary64 *)

Section Binary64.
Import PrimFloat.





(** The latitude 58.0 and the next binary64 number,
    58.000000000000007. *)
Definition lat_58 : float := 58%float.

Definition lat_58_next : float := 0x1.d000000000001p+5%float.

Lemma lat_58_next_up : lat_58_next = next_up lat_58.
Proof. vm_compute. reflexivity. Qed.





End Binary64.

(** ** The graph builder *)

Section Builder.
Context {W : Type}.

(** The adjacency structure and the edge list describe the same edges. *)
Definition consistent (g : Graph W) : Prop :=
  ∀ u v w, (v, w) ∈ adj_get g u ↔ (u, v, w) ∈ edges g.

Lemma adj_get_add_vertex (g : Graph W) v x :
  adj_get (add_vertex g v) x = adj_get g x.
Proof.
  unfold adj_get. simpl. destruct (adj g !! v) eqn:E; [done|].
  destruct (decide (v = x)) as [->|Hne].
  - by rewrite lookup_insert_eq, E.
  - by rewrite lookup_insert_ne.
Qed.

Lemma adj_get_add_edge (g : Graph W) u v w x :
  adj_get (add_edge g u v w) x =
  if decide (u = x) then adj_get g u ++ [(v, w)] else adj_get g x.
Proof.
  unfold add_edge. unfold adj_get at 1. cbn [adj].
  destruct (decide (u = x)) as [->|Hne].
  - rewrite lookup_insert_eq. simpl. by rewrite !adj_get_add_vertex.
  - rewrite lookup_insert_ne by done.
    fold (adj_get (add_vertex (add_vertex g u) v) x).
    by rewrite !adj_get_add_vertex.
Qed.

Lemma edges_add_edge (g : Graph W) u v w :
  edges (add_edge g u v w) = edges g ++ [(u, v, w)].
Proof. reflexivity. Qed.

Lemma V_add_edge (g : Graph W) u v w :
  u < V g → v < V g → V (add_edge g u v w) = V g.
Proof.
  intros Hu Hv. simpl.
  destruct (Z.leb_spec (V g) u) as [?|_]; [lia|].
  destruct (Z.leb_spec (V g) v) as [?|_]; [lia|]. done.
Qed.

Lemma consistent_add_edge (g : Graph W) u v w :
  consistent g → consistent (add_edge g u v w).
Proof.
  intros Hc x y z. rewrite adj_get_add_edge, edges_add_edge.
  destruct (decide (u = x)) as [->|Hne].
  - rewrite !elem_of_app, !list_elem_of_singleton, (Hc x y z).
    split; intros [?|?]; auto; right; congruence.
  - rewrite elem_of_app, list_elem_of_singleton, (Hc x y z).
    split; [auto|]. intros [?|?]; [done|congruence].
Qed.

Lemma consistent_init (n : Z) : consistent (Graph_init n : Graph W).
Proof.
  intros u v w. unfold adj_get. simpl. rewrite lookup_empty. simpl.
  split; intros Hin; by apply elem_of_nil in Hin.
Qed.

(** Graphs built through the two mutators with node identifiers that are
    not negative meet the precondition of the solver's theorems, and their
    adjacency structure agrees with their edge list. *)
Definition call_nodes_nonneg (c : call W) : Prop :=
  match c with
  | AddVertex v => 0 ≤ v
  | AddEdge u v _ => 0 ≤ u ∧ 0 ≤ v
  end.

Definition adj_targets_ok (g : Graph W) : Prop :=
  ∀ u v w, (v, w) ∈ adj_get g u → 0 ≤ v < V g.

Lemma adj_targets_ok_check `{Weight W} (g : Graph W) :
  adj_targets_ok g → targets_in_range g = true.
Proof.
  intros Hok. unfold targets_in_range. apply forallb_forall.
  intros [u l] Hin%list_elem_of_In%elem_of_map_to_list.
  apply forallb_forall. intros [v w] Hvw%list_elem_of_In.
  destruct (Hok u v w) as [Hlo Hhi].
  { unfold adj_get. by rewrite Hin. }
  apply andb_true_iff. split; [by apply Z.leb_le|by apply Z.ltb_lt].
Qed.

Lemma run_calls_invariants (cs : list (call W)) :
  ∀ g, Forall call_nodes_nonneg cs →
       adj_targets_ok g → consistent g →
       adj_targets_ok (run_calls g cs) ∧ consistent (run_calls g cs).
Proof.
  induction cs as [|c cs IH]; intros g Hcs Hok Hc; [done|].
  apply Forall_cons in Hcs as [Hc0 Hcs]. simpl.
  apply IH; [done| |]; destruct c as [v|u v w]; simpl in *.
  - intros x y z. rewrite adj_get_add_vertex. intros Hin.
    pose proof (Hok x y z Hin). pose proof (add_vertex_V_le g v).
    simpl in *. lia.
  - intros x y z. rewrite adj_get_add_edge.
    pose proof (add_vertex_V_le g u) as H1.
    pose proof (add_vertex_V_le (add_vertex g u) v) as H2.
    pose proof (add_vertex_V_gt (add_vertex g u) v) as H3.
    rewrite add_edge_V.
    destruct (decide (u = x)) as [->|Hne].
    + intros [Hin|Hin]%elem_of_app.
      * pose proof (Hok x y z Hin). lia.
      * apply list_elem_of_singleton in Hin as [= -> ->]. lia.
    + intros Hin. pose proof (Hok x y z Hin). lia.
  - intros x y z. rewrite adj_get_add_vertex. apply Hc.
  - by apply consistent_add_edge.
Qed.

Lemma built_graph_well_formed `{Weight W} (n : Z) (cs : list (call W)) :
  Forall call_nodes_nonneg cs →
  targets_in_range (run_calls (Graph_init n) cs) = true
  ∧ consistent (run_calls (Graph_init n) cs).
Proof.
  intros Hcs.
  destruct (run_calls_invariants cs (Graph_init n) Hcs) as [Hok Hc].
  - intros u v w Hin. unfold adj_get in Hin. simpl in Hin.
    rewrite lookup_empty in Hin. by apply elem_of_nil in Hin.
  - apply consistent_init.
  - split; [by apply adj_targets_ok_check|done].
Qed.

End Builder.

Section BuilderFacts.
Variable pts : list point.

Lemma location_of_lat (p : point) : item (location_of p) "lat" = Ok (PyFloat (point_lat p)).
Proof. reflexivity. Qed.

Lemma location_of_lon (p : point) : item (location_of p) "lon" = Ok (PyFloat (point_lon p)).
Proof. reflexivity. Qed.

Lemma row_edges_cons (i j : nat) (js : list nat) :
  row_edges pts i (j :: js) = pair_edges pts i j ++ row_edges pts i js.
Proof. reflexivity. Qed.

Lemma build_pairs_spec (i : nat) (a : point) :
  pts !! i = Some a →
  ∀ (js : list nat) (g : Graph R),
    Forall (λ j, (j < length pts)%nat) js →
    V g = Z.of_nat (length pts) →
    ∃ g', build_pairs (location_of <$> pts) i js g = Ok g'
          ∧ V g' = V g
          ∧ edges g' = edges g ++ row_edges pts i js
          ∧ (consistent g → consistent g').
Proof.
  intros Ha. pose proof (lookup_lt_Some _ _ _ Ha) as Hi.
  induction js as [|j js IH]; intros g Hjs HV.
  - exists g. simpl. rewrite app_nil_r. done.
  - apply Forall_cons in Hjs as [Hj Hjs].
    destruct (lookup_lt_is_Some_2 pts j Hj) as [b Hb].
    rewrite row_edges_cons. unfold pair_edges at 1. rewrite Ha, Hb.
    cbn [build_pairs]. unfold index. rewrite !list_lookup_fmap, Ha, Hb. simpl.
    rewrite !location_of_lat, !location_of_lon. simpl.
    set (d := haversine_distance (point_lat a) (point_lon a)
                (point_lat b) (point_lon b)).
    set (g1 := add_edge g (Z.of_nat i) (Z.of_nat j) d).
    set (g2 := add_edge g1 (Z.of_nat j) (Z.of_nat i) d).
    assert (V g1 = V g) as HV1 by (apply V_add_edge; lia).
    assert (V g2 = V g) as HV2.
    { unfold g2. rewrite V_add_edge; [done|lia|lia]. }
    destruct (IH g2 Hjs) as (g' & Hr & HV' & He & Hc); [congruence|].
    exists g'. split; [done|]. split; [congruence|]. split.
    + rewrite He. unfold g2, g1. rewrite !edges_add_edge, <-!app_assoc. done.
    + intros Hg. apply Hc. by do 2 apply consistent_add_edge.
Qed.

Lemma build_rows_spec (ivals : list nat) :
  ∀ g : Graph R,
    Forall (λ i, (i < length pts)%nat) ivals →
    V g = Z.of_nat (length pts) →
    ∃ g', build_rows (location_of <$> pts) (length pts) ivals g = Ok g'
          ∧ V g' = V g
          ∧ edges g' = edges g
              ++ (ivals ≫= λ i, row_edges pts i (seq (S i) (length pts - S i)))
          ∧ (consistent g → consistent g').
Proof.
  induction ivals as [|i ivals IH]; intros g Hi HV.
  - exists g. simpl. rewrite app_nil_r. done.
  - apply Forall_cons in Hi as [Hi His].
    destruct (lookup_lt_is_Some_2 pts i Hi) as [a Ha].
    destruct (build_pairs_spec i a Ha (seq (S i) (length pts - S i)) g)
      as (g1 & Hr1 & HV1 & He1 & Hc1); [|done|].
    { apply Forall_forall. intros j Hj%elem_of_seq. lia. }
    destruct (IH g1 His) as (g' & Hr & HV' & He & Hc); [congruence|].
    exists g'. rewrite bind_cons. cbn [build_rows]. rewrite Hr1.
    split; [done|]. split; [congruence|]. split.
    + rewrite He, He1, <-app_assoc. done.
    + auto.
Qed.

Lemma row_edges_length (i : nat) (js : list nat) :
  (i < length pts)%nat → Forall (λ j, (j < length pts)%nat) js →
  length (row_edges pts i js) = (2 * length js)%nat.
Proof.
  intros Hi. destruct (lookup_lt_is_Some_2 pts i Hi) as [a Ha].
  induction js as [|j js IH]; intros Hjs; [done|].
  apply Forall_cons in Hjs as [Hj Hjs].
  destruct (lookup_lt_is_Some_2 pts j Hj) as [b Hb].
  rewrite row_edges_cons, length_app, IH by done.
  unfold pair_edges. rewrite Ha, Hb. simpl. lia.
Qed.

Lemma rows_length (n : nat) :
  ∀ start : nat,
    (start + n = length pts)%nat →
    length (seq start n ≫= λ i, row_edges pts i (seq (S i) (length pts - S i)))
    = (n * (n - 1))%nat.
Proof.
  induction n as [|n IH]; intros start Hlen; [done|].
  simpl seq. rewrite bind_cons, length_app.
  rewrite (IH (S start)) by lia.
  rewrite row_edges_length; [|lia|].
  - rewrite length_seq. nia.
  - apply Forall_forall. intros j Hj%elem_of_seq. lia.
Qed.

Lemma complete_edges_length :
  length (complete_edges pts) = (length pts * (length pts - 1))%nat.
Proof. unfold complete_edges. by apply rows_length. Qed.

Lemma complete_edges_lt (i j : nat) (a b : point) :
  pts !! i = Some a → pts !! j = Some b → (i < j)%nat →
  (Z.of_nat i, Z.of_nat j, distance_km a b) ∈ complete_edges pts
  ∧ (Z.of_nat j, Z.of_nat i, distance_km a b) ∈ complete_edges pts.
Proof.
  intros Ha Hb Hlt.
  pose proof (lookup_lt_Some _ _ _ Ha) as Hi.
  pose proof (lookup_lt_Some _ _ _ Hb) as Hj.
  assert (∀ e, e ∈ pair_edges pts i j → e ∈ complete_edges pts) as Hin.
  { intros e He. unfold complete_edges. apply list_elem_of_bind.
    exists i. split; [|apply elem_of_seq; lia].
    unfold row_edges. apply list_elem_of_bind.
    exists j. split; [done|]. apply elem_of_seq. lia. }
  unfold pair_edges in Hin. rewrite Ha, Hb in Hin.
  split; apply Hin; [by left|right; by left].
Qed.

Lemma complete_edges_ne (i j : nat) (a b : point) :
  pts !! i = Some a → pts !! j = Some b → i ≠ j →
  (Z.of_nat i, Z.of_nat j, distance_km a b) ∈ complete_edges pts.
Proof.
  intros Ha Hb Hne.
  destruct (decide (i < j)%nat) as [Hlt|Hge].
  - exact (proj1 (complete_edges_lt i j a b Ha Hb Hlt)).
  - assert (j < i)%nat as Hlt by lia.
    unfold distance_km. rewrite haversine_symmetric.
    exact (proj2 (complete_edges_lt j i b a Hb Ha Hlt)).
Qed.

(** C4.  For a list of N points the builder returns a graph with
    [V = N] and exactly [N * (N - 1)] directed edges; for any two distinct
    indices [i] and [j] it holds the edge [(i, j)] weighted by the
    great-circle distance of the two points, in the edge list and in the
    adjacency of [i]; and for the empty list it returns the graph with
    [V = 0] and no edges. *)
Theorem build_graph_from_locations_complete :
  (∃ g, build_graph_from_locations (location_of <$> pts) = Ok g
        ∧ V g = Z.of_nat (length pts)
        ∧ length (edges g) = (length pts * (length pts - 1))%nat
        ∧ ∀ (i j : nat) (a b : point),
            pts !! i = Some a → pts !! j = Some b → i ≠ j →
            (Z.of_nat i, Z.of_nat j, distance_km a b) ∈ edges g
            ∧ (Z.of_nat j, distance_km a b) ∈ adj_get g (Z.of_nat i))
  ∧ build_graph_from_locations [] = Ok (Graph_init 0).
Proof.
  split; [|reflexivity].
  unfold build_graph_from_locations. rewrite length_fmap.
  destruct (build_rows_spec (seq 0 (length pts)) (Graph_init (Z.of_nat (length pts))))
    as (g & Hr & HV & He & Hc); [|done|].
  { apply Forall_forall. intros i Hi%elem_of_seq. lia. }
  exists g. split; [done|]. split; [done|].
  simpl in He. fold (complete_edges pts) in He.
  split; [rewrite He; apply complete_edges_length|].
  intros i j a b Ha Hb Hne.
  assert ((Z.of_nat i, Z.of_nat j, distance_km a b) ∈ edges g) as Hin.
  { rewrite He. by apply complete_edges_ne. }
  split; [done|]. apply Hc; [apply consistent_init|done].
Qed.

(** Two of the locations of the module's self-test. *)
Example build_two_locations :
  let sf := mkPoint "Depot" 37.7749 (-122.4194) in
  let oakland := mkPoint "Customer1" 37.8044 (-122.2712) in
  let d := distance_km sf oakland in
  build_graph_from_locations [location_of sf; location_of oakland]
  = Ok (mkGraph 2 (<[1 := [(0, d)]]> (<[0 := [(1, d)]]> ∅)) [(0, 1, d); (1, 0, d)]).
Proof. reflexivity. Qed.

(** A location without a latitude is reported by the subscript. *)
Example build_missing_latitude :
  build_graph_from_locations
    [location_of (mkPoint "Depot" 37.7749 (-122.4194)); <["lon" := PyFloat 1]> ∅]
  = Raise (KeyError (StrKey "lat")).
Proof. reflexivity. Qed.

(** C6, as amended.  An empty point set is not an error: the builder
    returns the graph with [V = 0], no adjacency entries and no edges. *)
Theorem build_graph_from_no_location :
  build_graph_from_locations [] = Ok (mkGraph 0 ∅ []).
Proof. reflexivity. Qed.

(** C6, counterexample.  On the empty list the builder raises nothing. *)
Lemma empty_point_set_not_an_error :
  ¬ ∃ e, build_graph_from_locations [] = Raise e.
Proof. intros [e He]. discriminate He. Qed.

End BuilderFacts.

(** * Further properties *)

(** ** What [dijkstra] returns *)

(** Adding a weight keeps the order.  Floats satisfy this: rounding is
    monotone. *)
Class MonotoneAdd (W : Type) `{Weight W} : Prop := {
  wadd_mono : ∀ x y w : W, wltb y x = false → wltb (wadd y w) (wadd x w) = false
}.

Global Instance num_monotone_add : MonotoneAdd num.
Proof.
  split. intros [x|] [y|] [w|]; simpl; try done.
  rewrite !Z.ltb_ge. lia.
Qed.

Section DijkstraKeys.
Context {W : Type} `{Weight W}.

Lemma relax_keys (u : Z) (nbrs : list (Z * W)) :
  ∀ dist pq dist' pq',
    relax u nbrs dist pq = Ok (dist', pq') →
    ∀ k, is_Some (dist' !! k) ↔ is_Some (dist !! k).
Proof.
  induction nbrs as [|[v w] rest IH]; intros dist pq dist' pq'; simpl.
  - by intros [= <- <-].
  - unfold subscript. destruct (dist !! u) as [du|]; [|done]. simpl.
    destruct (dist !! v) as [dv|] eqn:Hv; [|done]. simpl.
    destruct (wltb (wadd du w) dv); intros Hr k; [|by eapply IH].
    rewrite (IH _ _ _ _ Hr k).
    destruct (decide (v = k)) as [->|Hne].
    + rewrite lookup_insert_eq, Hv. split; eauto.
    + by rewrite lookup_insert_ne.
Qed.

Lemma dijkstra_loop_keys (g : Graph W) (fuel : nat) :
  ∀ dist pq visited dist',
    dijkstra_loop fuel g dist pq visited = Ok dist' →
    ∀ k, is_Some (dist' !! k) ↔ is_Some (dist !! k).
Proof.
  induction fuel as [|fuel IH]; intros dist pq visited dist'; simpl; [done|].
  destruct (heappop pq) as [[[d u] pq']|]; [|by intros [= <-]].
  destruct (decide (u ∈ visited)); [by apply IH|].
  destruct (relax u (adj_get g u) dist pq') as [[d1 q1]| |] eqn:Hr; simpl; try done.
  intros Hloop k. rewrite (IH _ _ _ _ Hloop k). by eapply relax_keys.
Qed.

(** The relaxation stops at the first neighbour that has no entry in
    [dist]. *)
Lemma relax_missing_key (u v : Z) (w : W) (l1 l2 : list (Z * W)) :
  ∀ dist pq,
    is_Some (dist !! u) →
    Forall (λ e, is_Some (dist !! e.1)) l1 →
    dist !! v = None →
    relax u (l1 ++ (v, w) :: l2) dist pq = Raise (KeyError (IntKey v)).
Proof.
  induction l1 as [|[v1 w1] l1 IH]; intros dist pq [du Hu] Hl1 Hv; simpl.
  - unfold subscript. by rewrite Hu, Hv.
  - apply Forall_cons in Hl1 as [[dv1 Hv1] Hl1]. simpl in Hv1.
    unfold subscript. rewrite Hu, Hv1. simpl.
    destruct (wltb (wadd du w1) dv1); [|by apply IH; eauto].
    assert (v1 ≠ v) as Hne by congruence.
    apply IH.
    + destruct (decide (v1 = u)) as [->|?].
      * rewrite lookup_insert_eq. eauto.
      * rewrite lookup_insert_ne by done. eauto.
    + eapply Forall_impl; [exact Hl1|]. intros [x wx] [dx Hx]. simpl in *.
      destruct (decide (v1 = x)) as [->|?].
      * rewrite lookup_insert_eq. eauto.
      * rewrite lookup_insert_ne by done. eauto.
    + by rewrite lookup_insert_ne.
Qed.

(** X1.  [dijkstra] raises [KeyError] when the source has an edge to a node
    that is neither in [[0, V)] nor the source itself, provided the edges
    listed before it have their targets there. *)
Theorem dijkstra_edge_out_of_range (g : Graph W) (s v : Z) (w : W)
    (l1 l2 : list (Z * W)) (fuel : nat) :
  adj_get g s = l1 ++ (v, w) :: l2 →
  Forall (λ e, in_range g e.1 ∨ e.1 = s) l1 →
  ¬ in_range g v → v ≠ s →
  dijkstra (S fuel) g s = Raise (KeyError (IntKey v)).
Proof.
  intros Hadj Hl1 Hv Hne. unfold dijkstra. simpl.
  rewrite decide_False by set_solver.
  rewrite Hadj, relax_missing_key; [done| | |].
  - rewrite lookup_insert_eq. eauto.
  - eapply Forall_impl; [exact Hl1|]. intros [x wx] Hx. simpl in *.
    destruct (decide (s = x)) as [->|Hsx].
    + rewrite lookup_insert_eq. eauto.
    + rewrite lookup_insert_ne by done. rewrite dict_of_range_lookup.
      destruct Hx as [Hx| ->]; [|done]. rewrite decide_True by done. eauto.
  - rewrite lookup_insert_ne by done. rewrite dict_of_range_lookup.
    by rewrite decide_False by done.
Qed.

End DijkstraKeys.

Section DijkstraFacts.
Context {W : Type} `{WeightLaws W}.
Variable g : Graph W.
Variable s : Z.
Hypothesis Hrange : targets_in_range g = true.

(** X2.  When the adjacency targets lie in [[0, V)], [dijkstra] accepts
    every source: it returns a map whose keys are the nodes of [[0, V)] and
    the source. *)
Theorem dijkstra_keys (fuel : nat) :
  (fuel_bound g ≤ fuel)%nat →
  ∃ dist, dijkstra fuel g s = Ok dist
          ∧ ∀ k, is_Some (dist !! k) ↔ in_range g k ∨ k = s.
Proof.
  intros Hfuel.
  destruct (dijkstra_loop_struct g s Hrange fuel _ _ ∅ (initial_struct g s)
              (initial_measure g s fuel Hfuel)) as (dist & Hr & _).
  exists dist. split; [done|]. intros k.
  rewrite (dijkstra_loop_keys g fuel _ _ _ _ Hr k), initial_dist_lookup.
  destruct (decide (s = k)) as [->|Hne]; [split; eauto|].
  destruct (decide (0 ≤ k < V g)) as [Hk|Hk].
  - split; eauto.
  - split; [by intros [? ?]|]. intros [?|?]; [done|congruence].
Qed.

Section Nonneg.
Hypothesis Hnonneg : nonneg_weights g = true.

(** The loop of [dijkstra] keeps the invariants of the loop of
    [get_shortest_path]; the parents are the ones the latter would record. *)
Lemma dijkstra_loop_tree (fuel : nat) :
  ∀ dist parent pq visited,
    struct_inv g s dist pq → order_inv dist pq visited →
    tree_inv g s dist (with_root g s parent) pq visited visited →
    parent_keys_ok g parent →
    (length pq + unvisited_adj g visited < fuel)%nat →
    ∃ dist' parent' visited',
      dijkstra_loop fuel g dist pq visited = Ok dist'
      ∧ struct_inv g s dist' [] ∧ order_inv dist' [] visited'
      ∧ tree_inv g s dist' (with_root g s parent') [] visited' visited'.
Proof.
  induction fuel as [|fuel IH];
    intros dist parent pq visited Hs Ho Htree Hkeys Hfuel; [lia|].
  simpl. destruct (heappop pq) as [[[d u] pq']|] eqn:Hpop.
  2:{ apply heappop_None in Hpop as ->. exists dist, parent, visited. eauto. }
  pose proof (heappop_length _ _ _ Hpop) as Hlen.
  pose proof (struct_inv_pop _ _ _ _ _ _ Hs Hpop) as Hs'.
  assert ((d, u) ∈ pq) as Hin by (apply (heappop_elem _ _ _ _ Hpop); by left).
  destruct (si_pq _ _ _ _ Hs _ _ Hin) as [du Hdu].
  destruct (decide (u ∈ visited)) as [Hu|Hu].
  - apply (IH dist parent); [done|by eapply order_inv_skip| |done|lia].
    destruct Htree as [Hfin Hclosed Hchain Hdom Hsrc]. split; try done.
    intros d' x Hin'. apply (Hfin d' x), (heappop_elem _ _ _ _ Hpop). by right.
  - destruct (order_inv_visit _ _ _ _ _ _ Ho Hpop Hu) as [Ho' Hlatest].
    pose proof (si_reach_pq _ _ _ _ Hs _ _ Hin) as Hreach.
    assert (u ∈ {[u]} ∪ visited) as Huv
      by (apply elem_of_union_l, elem_of_singleton; done).
    assert (visited ⊆ {[u]} ∪ visited) as Hsub by apply union_subseteq_r.
    destruct (relax_order g s Hrange Hnonneg u du dist parent pq' ({[u]} ∪ visited)
                Hs' Hreach Huv Hdu Ho' Hlatest) as
      (d' & p' & q' & Hr & Hs'' & Ho'' & Hsame & Hlen').
    destruct (relax_tree g s Hrange Hnonneg u du dist parent pq'
                ({[u]} ∪ visited) visited Hs' Hreach Huv Hsub Hdu Ho' Hlatest
                (tree_inv_pop g s _ _ _ _ _ _ u Htree Hpop) Hkeys) as
      (d2 & p2 & q2 & Hr2 & Htree' & Hrel & Hkeys').
    rewrite Hr in Hr2. injection Hr2 as <- <- <-.
    rewrite (relax_parent_relax u _ dist parent pq'), Hr. simpl.
    pose proof (unvisited_adj_visit g visited u Hu).
    apply (IH d' p'); [done|done| |done|lia].
    destruct Htree' as [Hfin Hclosed Hchain Hdom Hsrc]. split; try done.
    intros x v w dx Hx Hvw Hdx.
    apply elem_of_union in Hx as [Hx|Hx]; [|eauto].
    apply elem_of_singleton in Hx as ->.
    rewrite Hsame in Hdx by done.
    rewrite Hdu in Hdx. injection Hdx as <-. by apply Hrel.
Qed.

(** The state [dijkstra] ends in. *)
Lemma dijkstra_final (fuel : nat) :
  (fuel_bound g ≤ fuel)%nat →
  ∃ dist parent visited,
    dijkstra fuel g s = Ok dist
    ∧ struct_inv g s dist [] ∧ order_inv dist [] visited
    ∧ tree_inv g s dist (with_root g s parent) [] visited visited.
Proof.
  intros Hfuel.
  exact (dijkstra_loop_tree fuel _ (dict_of_range (V g) None) _ ∅
           (initial_struct g s) (initial_order g s) (initial_tree g s)
           (initial_parent_keys g) (initial_measure g s fuel Hfuel)).
Qed.

Lemma wpath_nonempty p v D : wpath g s v p D → p ≠ [].
Proof. intros Hp Hnil. apply wpath_head in Hp. by rewrite Hnil in Hp. Qed.

(** A walk without repeated nodes from the source to itself is the empty
    walk. *)
Lemma wpath_source_nodup p D : wpath g s s p D → NoDup p → D = w0.
Proof.
  intros Hp Hnd. inversion Hp as [|u v w p' D' Hp' Hvw]; [done|]. subst.
  pose proof (wpath_head _ _ _ _ _ Hp') as Hhead.
  apply NoDup_app in Hnd as (_ & Hdisj & _).
  destruct p' as [|x p']; [done|]. injection Hhead as ->.
  destruct (Hdisj s); by left.
Qed.

(** X3.  With adjacency targets in [[0, V)] and weights that are not
    negative, the source keeps the distance 0. *)
Theorem dijkstra_source_distance (fuel : nat) :
  (fuel_bound g ≤ fuel)%nat →
  ∃ dist, dijkstra fuel g s = Ok dist ∧ dist !! s = Some w0.
Proof.
  intros Hfuel.
  destruct (dijkstra_final fuel Hfuel) as (dist & parent & visited & Hr & _ & _ & Htree).
  exists dist. split; [done|].
  destruct (ti_source _ _ _ _ _ _ _ Htree) as (ds & Hds & Hfin).
  destruct (ti_chain _ _ _ _ _ _ _ Htree s ds Hds Hfin) as (p & _ & Hwp & Hnd & _).
  by rewrite (wpath_source_nodup p ds Hwp Hnd) in Hds.
Qed.

(** When the queue is empty every edge is relaxed. *)
Lemma final_closed dist parent visited u v w du :
  struct_inv g s dist [] → order_inv dist [] visited →
  tree_inv g s dist parent [] visited visited →
  dist !! u = Some du → (v, w) ∈ adj_get g u →
  ∃ dv, dist !! v = Some dv ∧ wle dv (wadd du w).
Proof.
  intros Hs Ho Htree Hdu Hvw.
  destruct (weq_cases du winf) as [->|Hfin].
  - destruct (si_dom _ _ _ _ Hs v (targets_in_range_elem _ _ _ _ Hrange Hvw))
      as [dv Hdv].
    exists dv. split; [done|].
    eapply (wle_trans dv winf); [apply wle_top|].
    apply wle_add. by eapply nonneg_weights_elem.
  - apply (ti_closed _ _ _ _ _ _ _ Htree u v w du); [|done|done].
    destruct (decide (u ∈ visited)) as [?|Hnot]; [done|].
    pose proof (oi_complete _ _ _ Ho u du Hdu Hfin Hnot) as Hin.
    by apply elem_of_nil in Hin.
Qed.

(** And then no walk weighs less than the distance of its end. *)
Lemma final_least `{!MonotoneAdd W} dist parent visited t p D' :
  struct_inv g s dist [] → order_inv dist [] visited →
  tree_inv g s dist parent [] visited visited →
  wpath g s t p D' →
  ∃ D, dist !! t = Some D ∧ wle D D'.
Proof.
  intros Hs Ho Htree. induction 1 as [|u v w p D' Hp IH Hvw].
  - destruct (ti_source _ _ _ _ _ _ _ Htree) as (ds & Hds & Hfin).
    destruct (ti_chain _ _ _ _ _ _ _ Htree s ds Hds Hfin) as (p & _ & Hwp & Hnd & _).
    rewrite (wpath_source_nodup p ds Hwp Hnd) in Hds.
    exists w0. split; [done|apply wle_refl].
  - destruct IH as (du & Hdu & Hle).
    destruct (final_closed _ _ _ u v w du Hs Ho Htree Hdu Hvw) as (dv & Hdv & Hle').
    exists dv. split; [done|].
    eapply wle_trans; [exact Hle'|]. by apply wadd_mono.
Qed.

(** X4.  With adjacency targets in [[0, V)] and weights that are not
    negative, no edge can improve the result: for every edge [(u, v, w)]
    whose tail has an entry, the test [dist[u] + w < dist[v]] of the
    relaxation is false. *)
Theorem dijkstra_relaxed (fuel : nat) :
  (fuel_bound g ≤ fuel)%nat →
  ∃ dist, dijkstra fuel g s = Ok dist
    ∧ ∀ u v w du, dist !! u = Some du → (v, w) ∈ adj_get g u →
        ∃ dv, dist !! v = Some dv ∧ wltb (wadd du w) dv = false.
Proof.
  intros Hfuel.
  destruct (dijkstra_final fuel Hfuel) as (dist & parent & visited & Hr & Hs & Ho & Htree).
  exists dist. split; [done|]. intros u v w du Hdu Hvw.
  by eapply final_closed.
Qed.

(** X5.  With adjacency targets in [[0, V)], weights that are not negative
    and a monotone addition, every distance in the result is the least
    weight of a walk from the source: a finite one is the weight of some
    walk, and no walk to the node weighs less. *)
Theorem dijkstra_shortest `{!MonotoneAdd W} (fuel : nat) :
  (fuel_bound g ≤ fuel)%nat →
  ∃ dist, dijkstra fuel g s = Ok dist
    ∧ ∀ t D, dist !! t = Some D →
        (D ≠ winf → ∃ p, wpath g s t p D)
        ∧ ∀ p D', wpath g s t p D' → wltb D' D = false.
Proof.
  intros Hfuel.
  destruct (dijkstra_final fuel Hfuel) as (dist & parent & visited & Hr & Hs & Ho & Htree).
  exists dist. split; [done|].
  intros t D HD. split.
  - intros Hfin.
    destruct (ti_chain _ _ _ _ _ _ _ Htree t D HD Hfin) as (p & _ & Hwp & _).
    eauto.
  - intros p D' Hp.
    destruct (final_least _ _ _ t p D' Hs Ho Htree Hp) as (D2 & HD2 & Hle).
    congruence.
Qed.

(** X6.  With adjacency targets in [[0, V)], weights that are finite and
    not negative, and no overflow, the nodes with a finite distance are
    the nodes that can be reached from the source. *)
Theorem dijkstra_finite_iff_reachable `{!NoOverflow W} (fuel : nat) :
  finite_weights g = true →
  (fuel_bound g ≤ fuel)%nat →
  ∃ dist, dijkstra fuel g s = Ok dist
    ∧ ∀ t D, dist !! t = Some D → (D ≠ winf ↔ reachable g s t).
Proof.
  intros Hfinite Hfuel.
  destruct (dijkstra_final fuel Hfuel) as (dist & parent & visited & Hr & Hs & Ho & Htree).
  exists dist. split; [done|]. intros t D HD. split.
  - intros Hfin. by eapply si_reach_dist.
  - intros Hreach.
    eapply reachable_finite; eauto.
Qed.

End Nonneg.
End DijkstraFacts.

(** ** What [get_shortest_path] returns *)

Section ShortestPathFacts.
Context {W : Type} `{WeightLaws W}.
Variable g : Graph W.
Variable s : Z.

(** X7.  Source and target equal and in [[0, V)]: the loop breaks at its
    first pop, whatever the graph, and the path is the source alone. *)
Theorem get_shortest_path_to_source (fuel : nat) :
  in_range g s →
  get_shortest_path (S fuel) g s s = Ok ([s], w0).
Proof.
  intros Hs. unfold get_shortest_path. simpl.
  rewrite decide_True by done. simpl.
  unfold subscript. rewrite lookup_insert_eq. simpl.
  rewrite weqb_neq by (eapply wlt_neq_inf, w0_finite).
  rewrite dict_of_range_lookup, decide_True by done. simpl.
  by destruct fuel.
Qed.

Section Nonneg.
Hypothesis Hrange : targets_in_range g = true.
Hypothesis Hnonneg : nonneg_weights g = true.
Hypothesis Hsource : in_range g s.

(** X8.  With adjacency targets, source and target in [[0, V)], weights
    that are not negative and a monotone addition, the returned distance
    is the least weight of a walk from the source to the target. *)
Theorem get_shortest_path_shortest `{!MonotoneAdd W} (fuel : nat) (t : Z) :
  in_range g t →
  (fuel_bound g ≤ fuel)%nat →
  ∃ p D, get_shortest_path fuel g s t = Ok (p, D)
         ∧ ∀ p' D', wpath g s t p' D' → wltb D' D = false.
Proof.
  intros Ht Hfuel.
  destruct (get_shortest_path_result g s Hrange Hnonneg fuel t Ht Hfuel)
    as (dist' & parent' & pq' & visited' & D & Hr & _ & _ & _ & _ & HD & Hres).
  destruct (loops_agree g s Hrange Hnonneg fuel t _ (dict_of_range (V g) None) _ ∅
              (initial_struct g s) (initial_order g s))
    as (d2 & p2 & distD & Hr2 & HrD & Heq);
    [apply not_elem_of_empty|by apply initial_measure|].
  rewrite Hr in Hr2. injection Hr2 as <- <-. rewrite HD in Heq.
  destruct (dijkstra_final g s Hrange Hnonneg fuel Hfuel)
    as (dist & parent & visited & Hdij & Hs & Ho & Htree).
  unfold dijkstra in Hdij. rewrite HrD in Hdij. injection Hdij as ->.
  assert (∀ p' D', wpath g s t p' D' → wltb D' D = false) as Hleast.
  { intros p' D' Hp.
    destruct (final_least g s Hrange Hnonneg _ _ _ t p' D' Hs Ho Htree Hp)
      as (D2 & HD2 & Hle).
    congruence. }
  destruct Hres as [[-> Hres]|[_ (p & _ & Hres)]].
  - by exists [], winf.
  - rewrite decide_True in Hres by done. by exists p, D.
Qed.

(** X9.  With adjacency targets, source and target in [[0, V)] and weights
    that are not negative, the returned path visits no node twice and
    stays in [[0, V)], so it has at most [V] nodes. *)
Theorem get_shortest_path_simple (fuel : nat) (t : Z) :
  in_range g t →
  (fuel_bound g ≤ fuel)%nat →
  ∃ p D, get_shortest_path fuel g s t = Ok (p, D)
         ∧ NoDup p ∧ Forall (in_range g) p
         ∧ (Z.of_nat (length p) ≤ V g).
Proof.
  intros Ht Hfuel.
  destruct (shortest_path_loop_tree g s Hrange Hnonneg fuel t _ _ _ ∅
              (initial_struct g s) (initial_order g s) (initial_tree g s)
              (initial_parent_keys g) (initial_measure g s fuel Hfuel))
    as (dist' & parent' & pq' & visited' & Hr & Hs & Ho & Htree & Hkeys & Hexit).
  destruct (si_dom _ _ _ _ Hs t Ht) as [D HD].
  unfold get_shortest_path. rewrite Hr. simpl. unfold subscript. rewrite HD. simpl.
  destruct (weq_cases D winf) as [->|Hfin].
  { rewrite weqb_refl. exists [], winf. split; [done|].
    split; [constructor|]. split; [constructor|]. destruct Ht as [Ht1 Ht2]. simpl. lia. }
  rewrite (weqb_neq _ _ Hfin).
  destruct (ti_chain _ _ _ _ _ _ _ Htree t D HD Hfin) as (p & Hpc & Hwp & Hnd & _).
  unfold with_root in Hpc, Htree. rewrite decide_True in Hpc, Htree by done.
  assert (Forall (in_range g) p) as Hin.
  { apply Forall_forall. intros x Hx.
    destruct (ti_dom _ _ _ _ _ _ _ Htree x (pchain_keys _ _ _ _ Hpc Hx)) as [?| ->]; done. }
  assert (length p ≤ Z.to_nat (V g))%nat as Hlen.
  { rewrite <-(length_seqZ 0 (V g)).
    apply submseteq_length, NoDup_submseteq; [done|].
    intros x Hx. apply elem_of_seqZ.
    rewrite Forall_forall in Hin. pose proof (Hin x Hx) as Hr'.
    unfold in_range in Hr'. lia. }
  rewrite (walk_parents_chain _ _ _ Hpc) by (unfold fuel_bound in Hfuel; lia).
  simpl. rewrite reverse_involutive.
  exists p, D. split; [done|]. split; [done|]. split; [done|].
  destruct Ht as [Ht1 Ht2]. lia.
Qed.

End Nonneg.
End ShortestPathFacts.

(** ** Targets reached by a walk of finite weight *)

Section FiniteWalks.
Context {W : Type} `{WeightLaws W}.
Variable g : Graph W.
Variable s : Z.
Hypothesis Hrange : targets_in_range g = true.

Lemma wpath_in_range t p D : wpath g s t p D → in_range g t ∨ t = s.
Proof.
  intros [|u v w p' D' _ Hvw]; [by right|]. left.
  by eapply targets_in_range_elem.
Qed.

(** The loop of [get_shortest_path] stops on a target outside [[0, V)]
    that is the source at its first pop, with the dictionaries as they
    were initialised. *)
Lemma shortest_path_loop_source (fuel : nat) dist parent :
  shortest_path_loop (S fuel) g s dist parent [(w0, s)] ∅ = Ok (dist, parent).
Proof. simpl. by rewrite decide_True. Qed.

Section Nonneg.
Hypothesis Hnonneg : nonneg_weights g = true.
Context `{!MonotoneAdd W}.

(** The distance the loop of [get_shortest_path] leaves for the target is
    at most the weight of any walk to it, so it is finite when some walk
    has a finite weight. *)
Lemma finite_walk_distance (fuel : nat) (t : Z) dist' parent' D p0 D0 :
  (fuel_bound g ≤ fuel)%nat →
  shortest_path_loop fuel g t (<[s := w0]> (dict_of_range (V g) winf))
    (dict_of_range (V g) None) [(w0, s)] ∅ = Ok (dist', parent') →
  dist' !! t = Some D →
  wpath g s t p0 D0 → D0 ≠ winf →
  D ≠ winf.
Proof.
  intros Hfuel Hr HD Hp0 HD0.
  destruct (loops_agree g s Hrange Hnonneg fuel t _ (dict_of_range (V g) None) _ ∅
              (initial_struct g s) (initial_order g s))
    as (d2 & p2 & distD & Hr2 & HrD & Heq);
    [apply not_elem_of_empty|by apply initial_measure|].
  rewrite Hr in Hr2. injection Hr2 as <- <-. rewrite HD in Heq.
  destruct (dijkstra_final g s Hrange Hnonneg fuel Hfuel)
    as (dist & parent & visited & Hdij & Hs & Ho & Htree).
  unfold dijkstra in Hdij. rewrite HrD in Hdij. injection Hdij as ->.
  destruct (final_least g s Hrange Hnonneg _ _ _ t p0 D0 Hs Ho Htree Hp0)
    as (D2 & HD2 & Hle).
  assert (D2 = D) as -> by congruence.
  intros ->. exact (wle_wlt_false _ _ Hle (neq_inf_wlt _ HD0)).
Qed.

(** A source outside [[0, V)] has no entry in [parent]: when the target is
    reached with a finite distance, walking the parents back to the source
    raises [KeyError]. *)
Lemma source_out_of_range (fuel : nat) (t : Z) p0 D0 :
  ¬ in_range g s →
  wpath g s t p0 D0 → D0 ≠ winf →
  (fuel_bound g ≤ fuel)%nat →
  get_shortest_path fuel g s t = Raise (KeyError (IntKey s)).
Proof.
  intros Hs Hp0 HD0 Hfuel.
  destruct (wpath_in_range _ _ _ Hp0) as [Ht| ->].
  2:{ by apply target_out_of_range. }
  destruct (get_shortest_path_result g s Hrange Hnonneg fuel t Ht Hfuel)
    as (dist' & parent' & pq' & visited' & D & Hr & _ & _ & _ & _ & HD & Hres).
  pose proof (finite_walk_distance fuel t _ _ D p0 D0 Hfuel Hr HD Hp0 HD0) as HDfin.
  destruct Hres as [[-> _]|[_ (p & _ & Hres)]]; [done|].
  by rewrite decide_False in Hres by done.
Qed.

(** C2, as amended.  In a graph whose adjacency targets lie in [[0, V)]
    and whose weights are not negative, for a source in [[0, V)] and a
    target that some walk from the source reaches with a finite weight
    (the weights added in walk order), [get_shortest_path] returns a
    non-empty path that starts at the source, ends at the target and
    follows edges of the graph, and the weights of these edges add up to
    the returned distance. *)
Theorem shortest_path_is_a_path (fuel : nat) (t : Z) :
  in_range g s →
  (∃ p0 D0, wpath g s t p0 D0 ∧ D0 ≠ winf) →
  (fuel_bound g ≤ fuel)%nat →
  ∃ p D,
    get_shortest_path fuel g s t = Ok (p, D)
    ∧ p ≠ [] ∧ head p = Some s ∧ last p = Some t
    ∧ wpath g s t p D.
Proof.
  intros Hsource (p0 & D0 & Hp0 & HD0) Hfuel.
  assert (in_range g t) as Ht by (by destruct (wpath_in_range _ _ _ Hp0) as [?| ->]).
  destruct (get_shortest_path_result g s Hrange Hnonneg fuel t Ht Hfuel)
    as (dist' & parent' & pq' & visited' & D & Hr & _ & _ & _ & _ & HD & Hres).
  pose proof (finite_walk_distance fuel t _ _ D p0 D0 Hfuel Hr HD Hp0 HD0) as HDfin.
  destruct Hres as [[-> _]|[_ (p & Hwp & Hres)]]; [done|].
  rewrite decide_True in Hres by done.
  exists p, D. split; [done|].
  pose proof (wpath_head _ _ _ _ _ Hwp) as Hhead.
  split; [by intros ->|]. split; [done|]. split; [by eapply wpath_last|done].
Qed.

End Nonneg.
End FiniteWalks.

(** C10, as amended.  In a graph whose adjacency targets lie in [[0, V)],
    a target outside [[0, V)] makes the call fail with [KeyError(target)]
    whatever the source is: the loop ends normally, and when the target
    differs from the source the failing subscript is the final
    [dist[target]], which has no entry, while for a target that is the
    source [dist[target]] is 0 and the failing subscript is
    [parent[target]].  A target inside [[0, V)] that is not reachable
    yields the empty path with [float('inf')] for every source, also for
    one outside [[0, V)].  But a source outside [[0, V)] has no entry in
    [parent]: with weights that are not negative the call fails with
    [KeyError(source)] whenever some walk from the source to the target
    has a finite weight. *)
Theorem out_of_range_arguments {W : Type} `{WeightLaws W}
    (g : Graph W) (s t : Z) (fuel : nat) :
  targets_in_range g = true →
  (fuel_bound g ≤ fuel)%nat →
  (¬ in_range g t →
     get_shortest_path fuel g s t = Raise (KeyError (IntKey t))
     ∧ ∃ dist' parent',
         shortest_path_loop fuel g t (<[s := w0]> (dict_of_range (V g) winf))
           (dict_of_range (V g) None) [(w0, s)] ∅ = Ok (dist', parent')
         ∧ if decide (t = s)
           then dist' !! t = Some w0 ∧ parent' !! t = None
           else dist' !! t = None)
  ∧ (in_range g t → ¬ reachable g s t →
     get_shortest_path fuel g s t = Ok ([], winf))
  ∧ (¬ in_range g s → nonneg_weights g = true → MonotoneAdd W →
     (∃ p D, wpath g s t p D ∧ D ≠ winf) →
     get_shortest_path fuel g s t = Raise (KeyError (IntKey s))).
Proof.
  intros Hg Hfuel. split; [|split].
  - intros Ht.
    destruct (target_out_of_range g s fuel t Hg Ht Hfuel) as [Hraise Hloop].
    split; [done|]. destruct (decide (t = s)) as [->|Hne]; [|by apply Hloop].
    destruct fuel as [|fuel]; [unfold fuel_bound in Hfuel; lia|].
    eexists _, _. split; [apply shortest_path_loop_source|].
    split; [apply lookup_insert_eq|].
    rewrite dict_of_range_lookup. by rewrite decide_False.
  - intros Ht Hunreach. by apply unreachable_shortest_path.
  - intros Hs Hnonneg Hmono (p & D & Hp & HD). by eapply source_out_of_range.
Qed.

Lemma sample_walk_0_5 : wpath sample_graph 0 5 [0; 1; 4; 5] (Fin 21).
Proof.
  change (wpath sample_graph 0 5 ([0; 1; 4] ++ [5]) (wadd (Fin 17) (Fin 4))).
  apply (wpath_edge _ _ 4); [|vm_compute; set_solver].
  change (wpath sample_graph 0 4 ([0; 1] ++ [4]) (wadd (Fin 10) (Fin 7))).
  apply (wpath_edge _ _ 1); [|vm_compute; set_solver].
  change (wpath sample_graph 0 1 ([0] ++ [1]) (wadd w0 (Fin 10))).
  apply (wpath_edge _ _ 0); [constructor|vm_compute; set_solver].
Qed.

Lemma negative_source_walk : wpath negative_source_graph (-1) 0 [-1; 0] (Fin 1).
Proof.
  change (wpath negative_source_graph (-1) 0 ([-1] ++ [0]) (wadd w0 (Fin 1))).
  apply (wpath_edge _ _ (-1)); [constructor|vm_compute; set_solver].
Qed.

Lemma shortest_path_is_a_path_witness :
  ∃ p D,
    get_shortest_path 16 sample_graph 0 5 = Ok (p, D)
    ∧ p ≠ [] ∧ head p = Some 0 ∧ last p = Some 5
    ∧ wpath sample_graph 0 5 p D.
Proof.
  apply (shortest_path_is_a_path sample_graph 0).
  - reflexivity.
  - reflexivity.
  - exact num_monotone_add.
  - unfold in_range. simpl. lia.
  - exists [0; 1; 4; 5], (Fin 21). split; [exact sample_walk_0_5|discriminate].
  - vm_compute. lia.
Defined.

Lemma out_of_range_arguments_witness :
  get_shortest_path 16 sample_graph 0 7 = Raise (KeyError (IntKey 7))
  ∧ get_shortest_path 16 sample_graph 7 0 = Ok ([], winf)
  ∧ get_shortest_path 16 negative_source_graph (-1) 0
    = Raise (KeyError (IntKey (-1))).
Proof.
  split; [|split].
  - apply (out_of_range_arguments sample_graph 0 7 16).
    + reflexivity.
    + vm_compute. lia.
    + unfold in_range. simpl. lia.
  - apply (out_of_range_arguments sample_graph 7 0 16).
    + reflexivity.
    + vm_compute. lia.
    + unfold in_range. simpl. lia.
    + exact sample_unreachable_7_0.
  - apply (out_of_range_arguments negative_source_graph (-1) 0 16).
    + reflexivity.
    + vm_compute. lia.
    + unfold in_range. simpl. lia.
    + reflexivity.
    + exact num_monotone_add.
    + exists [-1; 0], (Fin 1). split; [exact negative_source_walk|discriminate].
Defined.

(** ** Weights in binary64 *)

Section Binary64Weights.
Import PrimFloat.

(** The operations of the solver on Python floats. *)
Global Instance float_weight : Weight float :=
  {| w0 := 0%float; winf := infinity; wadd := add; wltb := ltb; weqb := eqb |}.

(** [Graph(3)] with the edges [0 -> 1 -> 2], each of weight [2.0**1023]:
    either weight is finite, their sum is [inf]. *)
Definition overflow_graph : Graph float :=
  run_calls (Graph_init 3)
    [AddEdge 0 1 0x1p1023%float; AddEdge 1 2 0x1p1023%float].

(** [Graph(); add_edge(0, -1, 1); add_edge(0, 1, 1)], with [V = 2]. *)
Definition escaping_first_edge_graph : Graph num :=
  run_calls (Graph_init 0) [AddEdge 0 (-1) (Fin 1); AddEdge 0 1 (Fin 1)].

(** C2, counterexample.  In [overflow_graph] all targets are in [[0, 3)],
    the weights are finite and not negative and node 2 is reachable from
    0, but the only walk to it weighs [inf], and [get_shortest_path(0, 2)]
    returns the empty path with [inf].  In the sample network
    [get_shortest_path(7, 7)] raises [KeyError(7)], 7 being outside
    [[0, 6)].  And after [add_edge(0, -1, 1); add_edge(0, 1, 1)] node 1 is
    reachable from 0, but [get_shortest_path(0, 1)] raises [KeyError(-1)]
    at the first relaxation. *)
Lemma reachable_target_without_path :
  (targets_in_range overflow_graph = true
   ∧ nonneg_weights overflow_graph = true
   ∧ finite_weights overflow_graph = true
   ∧ reachable overflow_graph 0 2
   ∧ get_shortest_path 16 overflow_graph 0 2 = Ok ([], infinity))
  ∧ (nonneg_weights sample_graph = true
     ∧ reachable sample_graph 7 7
     ∧ get_shortest_path 16 sample_graph 7 7 = Raise (KeyError (IntKey 7)))
  ∧ (nonneg_weights escaping_first_edge_graph = true
     ∧ reachable escaping_first_edge_graph 0 1
     ∧ get_shortest_path 16 escaping_first_edge_graph 0 1
       = Raise (KeyError (IntKey (-1)))).
Proof.
  split; [|split].
  - do 3 (split; [vm_compute; reflexivity|]). split; [|vm_compute; reflexivity].
    apply (reachable_edge _ _ 1 2 0x1p1023%float); [|vm_compute; set_solver].
    apply (reachable_edge _ _ 0 1 0x1p1023%float); [constructor|].
    vm_compute. set_solver.
  - split; [reflexivity|]. split; [constructor|reflexivity].
  - split; [reflexivity|]. split; [|reflexivity].
    apply (reachable_edge _ _ 0 1 (Fin 1)); [constructor|].
    vm_compute. set_solver.
Qed.

End Binary64Weights.

(** ** Breadth-first search *)

Section Bfs.
Context {W : Type}.

(** The [for v, _ in self.adj[u]] loop of [bfs]; [dist] is the hop count of
    the node taken from the queue. *)
Fixpoint bfs_neighbours (nbrs : list (Z * W)) (dist : Z)
    (visited : gset Z) (queue : list (Z * Z)) (distances : gmap Z Z)
    : gset Z * list (Z * Z) * gmap Z Z :=
  match nbrs with
  | [] => (visited, queue, distances)
  | (v, _) :: rest =>
      if decide (v ∈ visited) then bfs_neighbours rest dist visited queue distances
      else bfs_neighbours rest dist ({[v]} ∪ visited)
                          (queue ++ [(v, dist + 1)])
                          (<[v := dist + 1]> distances)
  end.

(** The [while queue] loop; [popleft] takes the head. *)
Fixpoint bfs_loop (fuel : nat) (g : Graph W)
    (visited : gset Z) (queue : list (Z * Z)) (distances : gmap Z Z)
    : result (gmap Z Z) :=
  match fuel with
  | O => OutOfFuel
  | S fuel' =>
      match queue with
      | [] => Ok distances
      | (u, dist) :: queue' =>
          let '(visited', queue'', distances') :=
            bfs_neighbours (adj_get g u) dist visited queue' distances in
          bfs_loop fuel' g visited' queue'' distances'
      end
  end.

Definition bfs (fuel : nat) (g : Graph W) (source : Z) : result (gmap Z Z) :=
  bfs_loop fuel g {[source]} [(source, 0)] {[source := 0]}.

(** [hops g s v n]: some walk from [s] to [v] has [n] edges. *)
Inductive hops (g : Graph W) (s : Z) : Z → Z → Prop :=
  | hops_source : hops g s s 0
  | hops_edge u v w n :
      hops g s u n → (v, w) ∈ adj_get g u → hops g s v (n + 1).

Definition bfs_fuel_bound (g : Graph W) : nat := (2 * total_adj g + 2)%nat.

Fixpoint nondecreasing (queue : list (Z * Z)) : Prop :=
  match queue with
  | [] => True
  | a :: rest => Forall (λ b, a.2 ≤ b.2) rest ∧ nondecreasing rest
  end.

Definition queued_adj (g : Graph W) (queue : list (Z * Z)) : nat :=
  sum_list ((λ e, length (adj_get g e.1)) <$> queue).

Definition bfs_measure (g : Graph W) (visited : gset Z) (queue : list (Z * Z)) : nat :=
  (2 * queued_adj g queue + 2 * unvisited_adj g visited + length queue)%nat.

(** All edges of [x] lead to nodes that have a hop count, at most one more
    than [n]. *)
Definition bfs_closed (g : Graph W) (distances : gmap Z Z) (x n : Z) : Prop :=
  ∀ v w, (v, w) ∈ adj_get g x → ∃ m, distances !! v = Some m ∧ m ≤ n + 1.

(** Between two iterations of the [while] loop. *)
Record bfs_inv (g : Graph W) (s : Z)
    (visited : gset Z) (queue : list (Z * Z)) (distances : gmap Z Z) : Prop := {
  bi_keys : ∀ v, v ∈ visited ↔ is_Some (distances !! v);
  bi_source : distances !! s = Some 0;
  bi_queue : ∀ u d, (u, d) ∈ queue → distances !! u = Some d;
  bi_hops : ∀ v n, distances !! v = Some n → hops g s v n;
  bi_closed : ∀ x n, distances !! x = Some n →
                x ∈ queue.*1 ∨ bfs_closed g distances x n;
  bi_sorted : nondecreasing queue;
  bi_window : ∀ a b, head queue = Some a → b ∈ queue → b.2 ≤ a.2 + 1;
  bi_bound : ∀ a v n, head queue = Some a → distances !! v = Some n → n ≤ a.2 + 1
}.

(** While the neighbours of [u], taken from the queue with hop count [d],
    are handled; [seen] are the ones handled so far. *)
Record bfs_inner (g : Graph W) (s u d : Z) (seen : list (Z * W))
    (visited : gset Z) (queue : list (Z * Z)) (distances : gmap Z Z) : Prop := {
  ni_keys : ∀ v, v ∈ visited ↔ is_Some (distances !! v);
  ni_source : distances !! s = Some 0;
  ni_queue : ∀ x dx, (x, dx) ∈ queue → distances !! x = Some dx;
  ni_hops : ∀ v n, distances !! v = Some n → hops g s v n;
  ni_current : distances !! u = Some d;
  ni_closed : ∀ x n, distances !! x = Some n →
                x = u ∨ x ∈ queue.*1 ∨ bfs_closed g distances x n;
  ni_seen : ∀ v w, (v, w) ∈ seen → ∃ m, distances !! v = Some m ∧ m ≤ d + 1;
  ni_sorted : nondecreasing queue;
  ni_window : ∀ b, b ∈ queue → d ≤ b.2 ≤ d + 1;
  ni_bound : ∀ v n, distances !! v = Some n → n ≤ d + 1
}.

Lemma nondecreasing_snoc (queue : list (Z * Z)) (x : Z * Z) :
  nondecreasing queue → Forall (λ a, a.2 ≤ x.2) queue →
  nondecreasing (queue ++ [x]).
Proof.
  induction queue as [|a rest IH]; simpl.
  - intros _ _. split; [constructor|done].
  - intros [Hle Hrest] [Ha Hall]%Forall_cons. split; [|by apply IH].
    apply Forall_app. split; [done|]. by apply Forall_singleton.
Qed.

Lemma queued_adj_snoc (g : Graph W) queue v d :
  queued_adj g (queue ++ [(v, d)]) = (queued_adj g queue + length (adj_get g v))%nat.
Proof.
  unfold queued_adj. rewrite fmap_app, sum_list_with_app. simpl. lia.
Qed.

Lemma bfs_neighbours_measure (g : Graph W) (nbrs : list (Z * W)) (d : Z) :
  ∀ visited queue distances visited' queue' distances',
    bfs_neighbours nbrs d visited queue distances = (visited', queue', distances') →
    (bfs_measure g visited' queue' ≤ bfs_measure g visited queue + length nbrs)%nat.
Proof.
  induction nbrs as [|[v w] rest IH]; intros visited queue distances vis' q' d'; simpl.
  - intros [= <- <- <-]. lia.
  - destruct (decide (v ∈ visited)) as [Hv|Hv]; intros Hr.
    + specialize (IH _ _ _ _ _ _ Hr). lia.
    + specialize (IH _ _ _ _ _ _ Hr).
      pose proof (unvisited_adj_visit g visited v Hv) as Hvis.
      unfold bfs_measure in *. rewrite queued_adj_snoc, length_app in IH.
      simpl in IH. lia.
Qed.

Lemma hops_reachable (g : Graph W) s v n : hops g s v n → reachable g s v.
Proof.
  induction 1 as [|u v w n _ IH Hvw]; [constructor|]. by eapply reachable_edge.
Qed.

Lemma hops_nonneg (g : Graph W) s v n : hops g s v n → 0 ≤ n.
Proof. induction 1; lia. Qed.

Lemma bfs_inner_step (g : Graph W) s u d seen visited queue distances v w :
  (v, w) ∈ adj_get g u →
  bfs_inner g s u d seen visited queue distances →
  if decide (v ∈ visited)
  then bfs_inner g s u d (seen ++ [(v, w)]) visited queue distances
  else bfs_inner g s u d (seen ++ [(v, w)]) ({[v]} ∪ visited)
         (queue ++ [(v, d + 1)]) (<[v := d + 1]> distances).
Proof.
  intros Hvw [Hkeys Hsrc Hq Hhops Hu Hclosed Hseen Hsorted Hwin Hbound].
  destruct (decide (v ∈ visited)) as [Hv|Hv].
  - split; try done.
    intros v' w' [Hin|Hin]%elem_of_app; [eauto|].
    apply list_elem_of_singleton in Hin as [= -> ->].
    apply Hkeys in Hv as [m Hm]. exists m. split; [done|]. eauto.
  - assert (distances !! v = None) as Hnone.
    { destruct (distances !! v) eqn:E; [|done]. destruct Hv. apply Hkeys. eauto. }
    assert (∀ x n, distances !! x = Some n → <[v := d + 1]> distances !! x = Some n)
      as Hkeep.
    { intros x n Hx. rewrite lookup_insert_ne; [done|]. congruence. }
    split.
    + intros x. rewrite elem_of_union, elem_of_singleton, Hkeys.
      destruct (decide (v = x)) as [->|Hne].
      * rewrite lookup_insert_eq. split; eauto.
      * rewrite lookup_insert_ne by done. split; [intros [?|?]; [congruence|done]|auto].
    + by apply Hkeep.
    + intros x dx [Hin|Hin]%elem_of_app; [by apply Hkeep, Hq|].
      apply list_elem_of_singleton in Hin as [= -> ->]. apply lookup_insert_eq.
    + intros x n. destruct (decide (v = x)) as [->|Hne].
      * rewrite lookup_insert_eq. intros [= <-].
        eapply hops_edge; [by apply Hhops|done].
      * rewrite lookup_insert_ne by done. apply Hhops.
    + by apply Hkeep.
    + intros x n. destruct (decide (v = x)) as [->|Hne].
      * intros _. right. left. rewrite fmap_app. apply elem_of_app. right. by left.
      * rewrite lookup_insert_ne by done. intros Hx.
        destruct (Hclosed x n Hx) as [?|[Hin|Hcl]]; [by left| |].
        -- right. left. rewrite fmap_app. apply elem_of_app. by left.
        -- right. right. intros y wy Hy.
           destruct (Hcl y wy Hy) as (m & Hm & Hle). exists m. split; [by apply Hkeep|done].
    + intros v' w' [Hin|Hin]%elem_of_app.
      * destruct (Hseen v' w' Hin) as (m & Hm & Hle). exists m. split; [by apply Hkeep|done].
      * apply list_elem_of_singleton in Hin as [= -> ->].
        exists (d + 1). rewrite lookup_insert_eq. split; [done|lia].
    + apply nondecreasing_snoc; [done|].
      apply Forall_forall. intros b Hb. simpl. apply (Hwin b Hb).
    + intros b [Hb|Hb]%elem_of_app; [by apply Hwin|].
      apply list_elem_of_singleton in Hb as ->. simpl. lia.
    + intros x n. destruct (decide (v = x)) as [->|Hne].
      * rewrite lookup_insert_eq. intros [= <-]. lia.
      * rewrite lookup_insert_ne by done. apply Hbound.
Qed.

Lemma bfs_neighbours_inv (g : Graph W) s u d (nbrs : list (Z * W)) :
  Forall (λ e, e ∈ adj_get g u) nbrs →
  ∀ seen visited queue distances visited' queue' distances',
    bfs_inner g s u d seen visited queue distances →
    bfs_neighbours nbrs d visited queue distances = (visited', queue', distances') →
    bfs_inner g s u d (seen ++ nbrs) visited' queue' distances'.
Proof.
  induction nbrs as [|[v w] rest IH];
    intros Hall seen visited queue distances vis' q' d' Hinv; simpl.
  - intros [= <- <- <-]. by rewrite app_nil_r.
  - apply Forall_cons in Hall as [Hvw Hall].
    pose proof (bfs_inner_step g s u d seen visited queue distances v w Hvw Hinv) as Hstep.
    replace (seen ++ (v, w) :: rest) with ((seen ++ [(v, w)]) ++ rest)
      by (by rewrite <-app_assoc).
    destruct (decide (v ∈ visited)); intros Hr; by eapply IH.
Qed.

(** One iteration of the [while] loop keeps the invariant. *)
Lemma bfs_iteration (g : Graph W) s u d visited queue distances
    visited' queue' distances' :
  bfs_inv g s visited ((u, d) :: queue) distances →
  bfs_neighbours (adj_get g u) d visited queue distances
    = (visited', queue', distances') →
  bfs_inv g s visited' queue' distances'.
Proof.
  intros [Hkeys Hsrc Hq Hhops Hclosed Hsorted Hwin Hbound] Hr.
  destruct Hsorted as [Hhead Hsorted]. rewrite Forall_forall in Hhead.
  assert (bfs_inner g s u d [] visited queue distances) as Hinner.
  { split; try done.
    - intros x dx Hin. apply Hq. by right.
    - apply Hq. by left.
    - intros x n Hx. destruct (Hclosed x n Hx) as [Hin|?]; [|by right; right].
      rewrite fmap_cons in Hin. apply elem_of_cons in Hin as [?|?]; [by left|by right; left].
    - intros v w Hin. by apply elem_of_nil in Hin.
    - intros b Hb. split; [by apply (Hhead b)|].
      apply (Hwin (u, d) b); [done|by right].
    - intros v n. by apply (Hbound (u, d)). }
  assert (Forall (λ e, e ∈ adj_get g u) (adj_get g u)) as Hall
    by (by apply Forall_forall).
  pose proof (bfs_neighbours_inv g s u d _ Hall [] _ _ _ _ _ _ Hinner Hr) as Hfin.
  simpl in Hfin.
  destruct Hfin as [Hk' Hs' Hq' Hh' Hu' Hc' Hseen' Hsorted' Hwin' Hb'].
  split; try done.
  - intros x n Hx. destruct (Hc' x n Hx) as [->|[?|?]]; [|by left|by right].
    right. rewrite Hu' in Hx. injection Hx as <-. exact Hseen'.
  - intros a b Ha Hb.
    assert (a ∈ queue') as Hain by (destruct queue'; [done|]; injection Ha as ->; by left).
    pose proof (Hwin' a Hain). pose proof (Hwin' b Hb). lia.
  - intros a v n Ha Hv.
    assert (a ∈ queue') as Hain by (destruct queue'; [done|]; injection Ha as ->; by left).
    pose proof (Hwin' a Hain). pose proof (Hb' v n Hv). lia.
Qed.

Lemma bfs_loop_inv (g : Graph W) s (fuel : nat) :
  ∀ visited queue distances,
    bfs_inv g s visited queue distances →
    (bfs_measure g visited queue < fuel)%nat →
    ∃ distances' visited',
      bfs_loop fuel g visited queue distances = Ok distances'
      ∧ bfs_inv g s visited' [] distances'.
Proof.
  induction fuel as [|fuel IH]; intros visited queue distances Hinv Hfuel; [lia|].
  simpl. destruct queue as [|[u d] queue]; [eauto|].
  destruct (bfs_neighbours (adj_get g u) d visited queue distances)
    as [[vis' q'] d'] eqn:Hr.
  apply IH; [by eapply bfs_iteration|].
  pose proof (bfs_neighbours_measure g _ d _ _ _ _ _ _ Hr) as Hm.
  unfold bfs_measure, queued_adj in *. rewrite fmap_cons in Hfuel.
  simpl in Hfuel. lia.
Qed.

Lemma bfs_initial (g : Graph W) s :
  bfs_inv g s {[s]} [(s, 0)] {[s := 0]}.
Proof.
  split.
  - intros v. rewrite elem_of_singleton.
    destruct (decide (s = v)) as [->|Hne].
    + rewrite lookup_singleton_eq. split; eauto.
    + rewrite lookup_singleton_ne by done. split; [congruence|by intros [? ?]].
  - apply lookup_singleton_eq.
  - intros u d [= -> ->]%list_elem_of_singleton. apply lookup_singleton_eq.
  - intros v n. destruct (decide (s = v)) as [->|Hne].
    + rewrite lookup_singleton_eq. intros [= <-]. constructor.
    + by rewrite lookup_singleton_ne.
  - intros x n. destruct (decide (s = x)) as [->|Hne].
    + intros _. left. by left.
    + by rewrite lookup_singleton_ne.
  - simpl. split; [constructor|done].
  - intros a b [= <-] ->%list_elem_of_singleton. simpl. lia.
  - intros a v n [= <-]. destruct (decide (s = v)) as [->|Hne].
    + rewrite lookup_singleton_eq. intros [= <-]. simpl. lia.
    + by rewrite lookup_singleton_ne.
Qed.

Lemma bfs_initial_measure (g : Graph W) s (fuel : nat) :
  (bfs_fuel_bound g ≤ fuel)%nat →
  (bfs_measure g {[s]} [(s, 0)%Z] < fuel)%nat.
Proof.
  intros Hfuel. unfold bfs_fuel_bound in Hfuel.
  pose proof (unvisited_adj_visit g ∅ s (not_elem_of_empty s)) as Hv.
  rewrite (right_id_L ∅ (∪)) in Hv. rewrite unvisited_adj_empty in Hv.
  unfold bfs_measure, queued_adj. simpl. lia.
Qed.

(** X10.  [bfs] returns for every graph and source, and the keys of its
    result are the nodes that can be reached from the source. *)
Theorem bfs_keys_reachable (g : Graph W) (s : Z) (fuel : nat) :
  (bfs_fuel_bound g ≤ fuel)%nat →
  ∃ distances, bfs fuel g s = Ok distances
    ∧ ∀ v, is_Some (distances !! v) ↔ reachable g s v.
Proof.
  intros Hfuel.
  destruct (bfs_loop_inv g s fuel _ _ _ (bfs_initial g s)
              (bfs_initial_measure g s fuel Hfuel)) as (dd & vis & Hr & Hinv).
  exists dd. split; [done|]. intros v. split.
  - intros [n Hn]. eapply hops_reachable, (bi_hops _ _ _ _ _ Hinv), Hn.
  - induction 1 as [|u v w _ [n Hn] Hvw]; [rewrite (bi_source _ _ _ _ _ Hinv); eauto|].
    destruct (bi_closed _ _ _ _ _ Hinv u n Hn) as [Hin|Hcl].
    + by apply elem_of_nil in Hin.
    + destruct (Hcl v w Hvw) as (m & Hm & _). eauto.
Qed.

(** X11.  The hop count of a node is the least number of edges of a walk
    from the source to it; the source has hop count 0. *)
Theorem bfs_fewest_hops (g : Graph W) (s : Z) (fuel : nat) :
  (bfs_fuel_bound g ≤ fuel)%nat →
  ∃ distances, bfs fuel g s = Ok distances
    ∧ distances !! s = Some 0
    ∧ ∀ v n, distances !! v = Some n →
        hops g s v n ∧ ∀ m, hops g s v m → n ≤ m.
Proof.
  intros Hfuel.
  destruct (bfs_loop_inv g s fuel _ _ _ (bfs_initial g s)
              (bfs_initial_measure g s fuel Hfuel)) as (dd & vis & Hr & Hinv).
  exists dd. split; [done|]. split; [exact (bi_source _ _ _ _ _ Hinv)|].
  assert (∀ v m, hops g s v m → ∃ n, dd !! v = Some n ∧ n ≤ m) as Hmin.
  { induction 1 as [|u v w m _ (n & Hn & Hle) Hvw].
    - exists 0. split; [exact (bi_source _ _ _ _ _ Hinv)|lia].
    - destruct (bi_closed _ _ _ _ _ Hinv u n Hn) as [Hin|Hcl].
      + by apply elem_of_nil in Hin.
      + destruct (Hcl v w Hvw) as (k & Hk & Hle'). exists k. split; [done|lia]. }
  intros v n Hn. split; [exact (bi_hops _ _ _ _ _ Hinv v n Hn)|].
  intros m Hm. destruct (Hmin v m Hm) as (n' & Hn' & Hle). congruence.
Qed.

End Bfs.

(** ** More on the great-circle distance *)

Section GeometryRange.
Local Open Scope R_scope.

Lemma asin_nonneg (x : R) : 0 <= x <= 1 → 0 <= asin x.
Proof.
  intros Hx. destruct (Rle_dec 0 (asin x)) as [?|Hneg]; [done|].
  pose proof (asin_bound x) as [Hlo _]. pose proof PI_RGT_0.
  assert (sin (asin x) < 0) as Hs by (apply sin_lt_0_var; lra).
  rewrite sin_asin in Hs by lra. lra.
Qed.

(** X12.  The distance is never negative and never exceeds half the
    circumference of the sphere. *)
Theorem haversine_range (lat1 lon1 lat2 lon2 : R) :
  0 <= haversine_distance lat1 lon1 lat2 lon2 <= 6371 * PI.
Proof.
  unfold haversine_distance. cbv zeta.
  pose proof (haversine_arg_range (radians lat1) (radians lat2)
                (radians lon2 - radians lon1)) as Ha.
  set (a := sin ((radians lat2 - radians lat1) / 2) ^ 2
            + cos (radians lat1) * cos (radians lat2)
              * sin ((radians lon2 - radians lon1) / 2) ^ 2) in *.
  assert (0 <= sqrt a <= 1) as Hs.
  { split; [apply sqrt_pos|]. rewrite <-sqrt_1. apply sqrt_le_1; lra. }
  pose proof (asin_nonneg _ Hs). pose proof (asin_bound (sqrt a)) as [_ Hhi].
  lra.
Qed.

End GeometryRange.

(** ** More on vertices and edges *)

Section CallSequences.
Context {W : Type}.

(** The entries of an edge list that leave [u], in their order. *)
Definition out_edges (es : list (Z * Z * W)) (u : Z) : list (Z * W) :=
  omap (λ e, if decide (e.1.1 = u) then Some (e.1.2, e.2) else None) es.

(** The node identifiers a call mentions. *)
Definition call_ids (c : call W) : list Z :=
  match c with
  | AddVertex v => [v]
  | AddEdge u v _ => [u; v]
  end.

Lemma out_edges_snoc (es : list (Z * Z * W)) u v w x :
  out_edges (es ++ [(u, v, w)]) x
  = if decide (u = x) then out_edges es x ++ [(v, w)] else out_edges es x.
Proof.
  unfold out_edges. rewrite omap_app. simpl.
  destruct (decide (u = x)); [done|by rewrite app_nil_r].
Qed.

Lemma run_calls_adjacency (cs : list (call W)) :
  ∀ g : Graph W,
    (∀ u, adj_get g u = out_edges (edges g) u) →
    ∀ u, adj_get (run_calls g cs) u = out_edges (edges (run_calls g cs)) u.
Proof.
  induction cs as [|c cs IH]; intros g Hg; [done|].
  simpl. apply IH. intros x. destruct c as [v|u v w]; simpl run_call.
  - rewrite adj_get_add_vertex. apply Hg.
  - rewrite adj_get_add_edge, edges_add_edge, out_edges_snoc.
    destruct (decide (u = x)) as [->|Hne]; by rewrite Hg.
Qed.

(** X15.  After any sequence of [add_vertex] and [add_edge] calls on a new
    graph, the adjacency list of a node holds the edges of the edge list
    that leave it, in the order of the calls and with repetitions kept. *)
Theorem adjacency_mirrors_edges (n : Z) (cs : list (call W)) (u : Z) :
  adj_get (run_calls (Graph_init n) cs) u
  = out_edges (edges (run_calls (Graph_init n) cs)) u.
Proof.
  apply run_calls_adjacency. intros x. unfold adj_get. simpl.
  by rewrite lookup_empty.
Qed.

Lemma foldr_max_init (a b : Z) (l : list Z) :
  foldr Z.max (Z.max a b) l = Z.max (foldr Z.max a l) b.
Proof. induction l as [|x l IH]; simpl; [done|]. rewrite IH. lia. Qed.

Lemma add_vertex_V_max (g : Graph W) v : V (add_vertex g v) = Z.max (V g) (v + 1).
Proof. simpl. destruct (Z.leb_spec (V g) v); lia. Qed.

(** X16.  The vertex count after a sequence of calls is the larger of the count
    before and one more than the largest identifier mentioned: it never
    shrinks, and identifiers below the count, negative ones included,
    leave it as it is. *)
Theorem vertex_count_after_calls (g : Graph W) (cs : list (call W)) :
  V (run_calls g cs)
  = foldr Z.max (V g) ((λ x, x + 1) <$> (cs ≫= call_ids)).
Proof.
  revert g. induction cs as [|c cs IH]; intros g; [done|].
  simpl run_calls. fold (run_calls (run_call g c) cs). rewrite IH, bind_cons, fmap_app.
  rewrite foldr_app. destruct c as [v|u v w]; simpl call_ids.
  - simpl run_call. rewrite add_vertex_V_max.
    rewrite foldr_max_init. cbn [foldr fmap list_fmap]. lia.
  - simpl run_call. rewrite add_edge_V, !add_vertex_V_max.
    rewrite !foldr_max_init. cbn [foldr fmap list_fmap]. lia.
Qed.

End CallSequences.

(** ** More on breadth-first search *)

Section BfsFacts.
Context {W : Type}.
Implicit Types (g : Graph W).

Lemma bfs_final g s (fuel : nat) :
  (bfs_fuel_bound g ≤ fuel)%nat →
  ∃ distances visited,
    bfs fuel g s = Ok distances ∧ bfs_inv g s visited [] distances.
Proof.
  intros Hfuel.
  exact (bfs_loop_inv g s fuel _ _ _ (bfs_initial g s)
           (bfs_initial_measure g s fuel Hfuel)).
Qed.

Lemma hops_zero g s v : hops g s v 0 → v = s.
Proof.
  inversion 1 as [|u v' w n Hn Hvw Heq]; [done|].
  pose proof (hops_nonneg g s u n Hn). lia.
Qed.

Lemma hops_target g s v n :
  hops g s v n → v = s ∨ ∃ u w, (v, w) ∈ adj_get g u.
Proof. inversion 1; eauto. Qed.

End BfsFacts.

(** ** More on the graph builder *)

(** A location the builder can use: it has a latitude and a longitude,
    and both are numbers. *)
Definition numeric_location (loc : gmap string pyval) : Prop :=
  ∃ x y, loc !! "lat" = Some (PyFloat x) ∧ loc !! "lon" = Some (PyFloat y).

Section BuilderErrors.
Variable locations : list (gmap string pyval).

Definition usable (k : nat) : Prop :=
  ∃ loc, locations !! k = Some loc ∧ numeric_location loc.

Lemma build_pairs_ok_inv (i : nat) (js : list nat) :
  ∀ g g', build_pairs locations i js g = Ok g' →
          ∀ j, j ∈ js → usable i ∧ usable j.
Proof.
  induction js as [|j js IH]; intros g g' Hr k Hk; [by apply elem_of_nil in Hk|].
  cbn [build_pairs] in Hr. unfold index, item in Hr.
  destruct (locations !! i) as [li|] eqn:Hi; simpl in Hr; [|discriminate].
  destruct (locations !! j) as [lj|] eqn:Hj; simpl in Hr; [|discriminate].
  destruct (li !! "lat") as [v1|] eqn:H1; simpl in Hr; [|discriminate].
  destruct (li !! "lon") as [v2|] eqn:H2; simpl in Hr; [|discriminate].
  destruct (lj !! "lat") as [v3|] eqn:H3; simpl in Hr; [|discriminate].
  destruct (lj !! "lon") as [v4|] eqn:H4; simpl in Hr; [|discriminate].
  destruct v1 as [?|x1]; simpl in Hr; [discriminate|].
  destruct v2 as [?|y1]; simpl in Hr; [discriminate|].
  destruct v3 as [?|x2]; simpl in Hr; [discriminate|].
  destruct v4 as [?|y2]; simpl in Hr; [discriminate|].
  apply elem_of_cons in Hk as [->|Hk].
  - split; [exists li|exists lj]; (split; [done|]); unfold numeric_location; eauto.
  - by eapply IH.
Qed.

Lemma build_rows_ok_inv (n : nat) (ivals : list nat) :
  ∀ g g', build_rows locations n ivals g = Ok g' →
          ∀ i j, i ∈ ivals → j ∈ seq (S i) (n - S i) → usable i ∧ usable j.
Proof.
  induction ivals as [|i ivals IH]; intros g g' Hr k j Hk Hj;
    [by apply elem_of_nil in Hk|].
  cbn [build_rows] in Hr.
  destruct (build_pairs locations i (seq (S i) (n - S i)) g) as [g1| |] eqn:Hg1;
    simpl in Hr; [|discriminate|discriminate].
  apply elem_of_cons in Hk as [->|Hk].
  - by eapply build_pairs_ok_inv.
  - by eapply IH.
Qed.

(** X17.  A list with at most one location is never inspected: the
    builder returns [Graph(n)] whatever the list holds.  And when the
    builder returns a graph for two or more locations, every location has
    a latitude and a longitude, and both are numbers. *)
Theorem build_inspects_pairs :
  ((length locations ≤ 1)%nat →
   build_graph_from_locations locations
   = Ok (Graph_init (Z.of_nat (length locations))))
  ∧ (∀ g, build_graph_from_locations locations = Ok g →
          (2 ≤ length locations)%nat →
          Forall numeric_location locations).
Proof.
  unfold build_graph_from_locations. split.
  - intros Hlen.
    destruct locations as [|l0 [|l1 rest]]; [done..|simpl in Hlen; lia].
  - intros g Hg Hlen. apply Forall_lookup. intros k loc Hk.
    pose proof (lookup_lt_Some _ _ _ Hk) as Hlt.
    destruct k as [|k].
    + destruct (build_rows_ok_inv _ _ _ _ Hg 0%nat 1%nat)
        as [(l0 & Hl0 & Hnum) _]; [apply elem_of_seq; lia..|].
      congruence.
    + destruct (build_rows_ok_inv _ _ _ _ Hg 0%nat (S k))
        as [_ (l1 & Hl1 & Hnum)]; [apply elem_of_seq; lia..|].
      congruence.
Qed.

End BuilderErrors.

Section BuiltGraph.
Variable pts : list point.

Lemma build_result :
  ∃ g, build_graph_from_locations (location_of <$> pts) = Ok g
       ∧ V g = Z.of_nat (length pts)
       ∧ edges g = complete_edges pts
       ∧ consistent g.
Proof.
  unfold build_graph_from_locations. rewrite length_fmap.
  destruct (build_rows_spec pts (seq 0 (length pts))
              (Graph_init (Z.of_nat (length pts))))
    as (g & Hr & HV & He & Hc); [|done|].
  { apply Forall_forall. intros i Hi%elem_of_seq. lia. }
  exists g. split; [done|]. split; [done|]. split; [done|].
  apply Hc, consistent_init.
Qed.

Lemma complete_edges_elem (e : Z * Z * R) :
  e ∈ complete_edges pts →
  ∃ (i j : nat) (a b : point),
    (i < j)%nat ∧ pts !! i = Some a ∧ pts !! j = Some b
    ∧ (e = (Z.of_nat i, Z.of_nat j, distance_km a b)
       ∨ e = (Z.of_nat j, Z.of_nat i, distance_km a b)).
Proof.
  unfold complete_edges. intros (i & He & Hi)%list_elem_of_bind.
  unfold row_edges in He. apply list_elem_of_bind in He as (j & He & Hj).
  apply elem_of_seq in Hj. unfold pair_edges in He.
  destruct (pts !! i) as [a|] eqn:Ha; [|by apply elem_of_nil in He].
  destruct (pts !! j) as [b|] eqn:Hb; [|by apply elem_of_nil in He].
  exists i, j, a, b. split; [lia|]. split; [done|]. split; [done|].
  apply elem_of_cons in He as [?|He]; [by left|].
  apply list_elem_of_singleton in He. by right.
Qed.

(** X18.  The builder records nothing but the great-circle distances of pairs
    of distinct locations: every edge joins two distinct indices of the
    list, its weight is the distance of the two points and lies between 0
    and half the circumference, and the reverse edge is recorded with the
    same weight. *)
Theorem built_graph_edges :
  ∃ g, build_graph_from_locations (location_of <$> pts) = Ok g
       ∧ ∀ u v w, (u, v, w) ∈ edges g →
           (∃ (i j : nat) (a b : point),
               i ≠ j ∧ pts !! i = Some a ∧ pts !! j = Some b
               ∧ u = Z.of_nat i ∧ v = Z.of_nat j ∧ w = distance_km a b)
           ∧ (v, u, w) ∈ edges g
           ∧ (0 <= w <= 6371 * PI)%R.
Proof.
  destruct build_result as (g & Hr & HV & He & Hc).
  exists g. split; [done|]. intros u v w Hin. rewrite He in *.
  destruct (complete_edges_elem _ Hin) as (i & j & a & b & Hlt & Ha & Hb & Hcase).
  destruct (complete_edges_lt pts i j a b Ha Hb Hlt) as [Hij Hji].
  pose proof (haversine_range (point_lat a) (point_lon a)
                (point_lat b) (point_lon b)) as Hrange.
  fold (distance_km a b) in Hrange.
  destruct Hcase as [[= -> -> ->]|[= -> -> ->]].
  - split; [|done]. exists i, j, a, b. repeat split; try done. lia.
  - split; [|done]. exists j, i, b, a. repeat split; try done; [lia|].
    unfold distance_km. apply haversine_symmetric.
Qed.

(** X19.  In a graph built from locations every other location is one hop
    away: from any index, [bfs] gives 0 for the index itself, 1 for every
    other index of the list, and has no other key. *)
Theorem bfs_built_graph (i : nat) :
  (i < length pts)%nat →
  ∃ g distances,
    build_graph_from_locations (location_of <$> pts) = Ok g
    ∧ bfs (bfs_fuel_bound g) g (Z.of_nat i) = Ok distances
    ∧ ∀ j : Z,
        distances !! j =
          if decide (j = Z.of_nat i) then Some 0
          else if decide (0 ≤ j < Z.of_nat (length pts)) then Some 1
          else None.
Proof.
  intros Hi. destruct build_result as (g & Hr & HV & He & Hc).
  destruct (bfs_final g (Z.of_nat i) (bfs_fuel_bound g)) as (d & vis & Hd & Hinv);
    [done|].
  exists g, d. split; [done|]. split; [done|]. intros j.
  destruct (lookup_lt_is_Some_2 pts i Hi) as [a Ha].
  destruct (decide (j = Z.of_nat i)) as [->|Hne];
    [exact (bi_source _ _ _ _ _ Hinv)|].
  destruct (decide (0 ≤ j < Z.of_nat (length pts))) as [Hj|Hj].
  - assert ((Z.to_nat j < length pts)%nat) as Hj' by lia.
    destruct (lookup_lt_is_Some_2 pts _ Hj') as [b Hb].
    assert ((j, distance_km a b) ∈ adj_get g (Z.of_nat i)) as Hedge.
    { apply Hc. rewrite He. replace j with (Z.of_nat (Z.to_nat j)) by lia.
      apply complete_edges_ne; [done|done|lia]. }
    destruct (bi_closed _ _ _ _ _ Hinv _ _ (bi_source _ _ _ _ _ Hinv)) as [Hq|Hcl].
    { by apply elem_of_nil in Hq. }
    destruct (Hcl _ _ Hedge) as (m & Hm & Hle).
    pose proof (bi_hops _ _ _ _ _ Hinv _ _ Hm) as Hhops.
    pose proof (hops_nonneg _ _ _ _ Hhops) as Hpos.
    destruct (decide (m = 0)) as [->|Hm0].
    { by apply hops_zero in Hhops. }
    rewrite Hm. f_equal. lia.
  - destruct (d !! j) as [m|] eqn:Hm; [|done].
    pose proof (bi_hops _ _ _ _ _ Hinv _ _ Hm) as Hhops.
    destruct (hops_target _ _ _ _ Hhops) as [?|(u & w & Hin)]; [done|].
    apply Hc in Hin. rewrite He in Hin.
    destruct (complete_edges_elem _ Hin)
      as (i' & j' & a' & b' & Hlt & Ha' & Hb' & Hcase).
    apply lookup_lt_Some in Ha'. apply lookup_lt_Some in Hb'.
    destruct Hcase as [[= -> -> ->]|[= -> -> ->]]; lia.
Qed.

End BuiltGraph.

(** Two of the locations of the module's self-test. *)
Definition two_locations : list point :=
  [mkPoint "Depot" 37.7749 (-122.4194); mkPoint "Customer1" 37.8044 (-122.2712)].

Lemma bfs_built_graph_witness :
  ∃ g distances,
    build_graph_from_locations (location_of <$> two_locations) = Ok g
    ∧ bfs (bfs_fuel_bound g) g (Z.of_nat 0) = Ok distances
    ∧ ∀ j : Z,
        distances !! j =
          if decide (j = Z.of_nat 0) then Some 0
          else if decide (0 ≤ j < Z.of_nat (length two_locations)) then Some 1
          else None.
Proof.
  apply (bfs_built_graph two_locations 0). simpl. lia.
Defined.

(** ** The further properties on the sample network *)

(** A graph with an edge to a node outside [[0, V)]:
    [g = Graph(); g.add_edge(0, -1, 1)] has [V = 1]. *)
Definition dangling_edge_graph : Graph num :=
  run_calls (Graph_init 0) [AddEdge 0 (-1) (Fin 1)].

Lemma dijkstra_edge_out_of_range_witness :
  dijkstra 1 dangling_edge_graph 0 = Raise (KeyError (IntKey (-1))).
Proof.
  apply (dijkstra_edge_out_of_range dangling_edge_graph 0 (-1) (Fin 1) [] []).
  - reflexivity.
  - apply Forall_nil_2.
  - unfold in_range. simpl. lia.
  - lia.
Defined.

Lemma dijkstra_keys_witness :
  ∃ dist, dijkstra 16 sample_graph 0 = Ok dist
          ∧ ∀ k, is_Some (dist !! k) ↔ in_range sample_graph k ∨ k = 0.
Proof.
  apply (dijkstra_keys sample_graph 0).
  - reflexivity.
  - vm_compute. lia.
Defined.

Lemma dijkstra_source_distance_witness :
  ∃ dist, dijkstra 16 sample_graph 0 = Ok dist ∧ dist !! 0 = Some w0.
Proof.
  apply (dijkstra_source_distance sample_graph 0).
  - reflexivity.
  - reflexivity.
  - vm_compute. lia.
Defined.

Lemma dijkstra_relaxed_witness :
  ∃ dist, dijkstra 16 sample_graph 0 = Ok dist
    ∧ ∀ u v w du, dist !! u = Some du → (v, w) ∈ adj_get sample_graph u →
        ∃ dv, dist !! v = Some dv ∧ wltb (wadd du w) dv = false.
Proof.
  apply (dijkstra_relaxed sample_graph 0).
  - reflexivity.
  - reflexivity.
  - vm_compute. lia.
Defined.

Lemma dijkstra_shortest_witness :
  ∃ dist, dijkstra 16 sample_graph 0 = Ok dist
    ∧ ∀ t D, dist !! t = Some D →
        (D ≠ winf → ∃ p, wpath sample_graph 0 t p D)
        ∧ ∀ p D', wpath sample_graph 0 t p D' → wltb D' D = false.
Proof.
  apply (dijkstra_shortest sample_graph 0).
  - reflexivity.
  - reflexivity.
  - exact num_monotone_add.
  - vm_compute. lia.
Defined.

Lemma dijkstra_finite_iff_reachable_witness :
  ∃ dist, dijkstra 16 sample_graph 0 = Ok dist
    ∧ ∀ t D, dist !! t = Some D → (D ≠ winf ↔ reachable sample_graph 0 t).
Proof.
  apply (dijkstra_finite_iff_reachable sample_graph 0).
  - reflexivity.
  - reflexivity.
  - exact num_no_overflow.
  - reflexivity.
  - vm_compute. lia.
Defined.

Lemma get_shortest_path_to_source_witness :
  get_shortest_path 1 sample_graph 3 3 = Ok ([3], w0).
Proof.
  apply (get_shortest_path_to_source sample_graph 3 0).
  unfold in_range. simpl. lia.
Defined.

Lemma get_shortest_path_shortest_witness :
  ∃ p D, get_shortest_path 16 sample_graph 0 5 = Ok (p, D)
         ∧ ∀ p' D', wpath sample_graph 0 5 p' D' → wltb D' D = false.
Proof.
  apply (get_shortest_path_shortest sample_graph 0).
  - reflexivity.
  - reflexivity.
  - unfold in_range. simpl. lia.
  - exact num_monotone_add.
  - unfold in_range. simpl. lia.
  - vm_compute. lia.
Defined.

Lemma get_shortest_path_simple_witness :
  ∃ p D, get_shortest_path 16 sample_graph 0 5 = Ok (p, D)
         ∧ NoDup p ∧ Forall (in_range sample_graph) p
         ∧ (Z.of_nat (length p) ≤ V sample_graph).
Proof.
  apply (get_shortest_path_simple sample_graph 0).
  - reflexivity.
  - reflexivity.
  - unfold in_range. simpl. lia.
  - unfold in_range. simpl. lia.
  - vm_compute. lia.
Defined.

Lemma bfs_keys_reachable_witness :
  ∃ distances, bfs 18 sample_graph 0 = Ok distances
    ∧ ∀ v, is_Some (distances !! v) ↔ reachable sample_graph 0 v.
Proof.
  apply (bfs_keys_reachable sample_graph 0 18). vm_compute. lia.
Defined.

Lemma bfs_fewest_hops_witness :
  ∃ distances, bfs 18 sample_graph 0 = Ok distances
    ∧ distances !! 0 = Some 0
    ∧ ∀ v n, distances !! v = Some n →
        hops sample_graph 0 v n ∧ ∀ m, hops sample_graph 0 v m → n ≤ m.
Proof.
  apply (bfs_fewest_hops sample_graph 0 18). vm_compute. lia.
Defined.

(** The hop counts of the module's self-test. *)
Example sample_bfs :
  map_to_list <$> (match bfs 18 sample_graph 0 with Ok d => Some d | _ => None end)
  = Some [(5, 3); (3, 2); (4, 2); (2, 1); (1, 1); (0, 0)].
Proof. vm_compute. reflexivity. Qed.
